(** * The keyring of nomad/encrypter.go

    A shallow embedding of [Encrypter] and [KeyringReplicator]
    (src/nomad/encrypter.go): the in-memory keyring, the on-disk keystore,
    variable encryption, workload-identity signing and the replication of
    key material.  Go methods become functions over an explicit [Encrypter]
    value and a [World] (state store, keystore directory, entropy); a Go
    [(value, error)] result and a runtime panic are the three cases of
    [outcome]. *)

From Stdlib Require Import ZArith Lia Ascii.
From stdpp Require Import base option list strings gmap.

Set Default Proof Using "Type".
Open Scope Z_scope.
Open Scope nat_scope.

(** ** Results of a Go call *)

Inductive error : Type :=
| ErrNotInitialized                       (* "keyring has not been initialized yet" *)
| ErrNoSuchKey (keyID : string)           (* "no such key %q in keyring" *)
| ErrMissingMetadata                      (* "missing metadata" *)
| ErrInvalidAlgorithm (alg : string)      (* "invalid algorithm %s" *)
| ErrCiphertextInvalid                    (* cipher.AEAD.Open: message authentication failed *)
| ErrEntropy                              (* helper/crypto.Bytes: short or failed read *)
| ErrMismatch (keyID path : string)       (* "root key ID %s must match key file %s" *)
| SkipDir                                 (* filepath.SkipDir *)
| ErrLib (msg : string)                   (* an error value made by a library or the OS *)
| ErrWrap (context : string) (cause : error).   (* fmt.Errorf(context + ": %w", cause) *)

Inductive outcome (A : Type) : Type :=
| Ok (a : A)
| Err (e : error)
| Panic (msg : string).
Arguments Ok {A} a.
Arguments Err {A} e.
Arguments Panic {A} msg.

Definition is_ok {A} (o : outcome A) : bool :=
  match o with Ok _ => true | _ => false end.

Definition is_panic {A} (o : outcome A) : bool :=
  match o with Panic _ => true | _ => false end.

Definition obind {A B} (o : outcome A) (k : A -> outcome B) : outcome B :=
  match o with
  | Ok a => k a
  | Err e => Err e
  | Panic m => Panic m
  end.

(** [if err != nil { return fmt.Errorf("context: %w", err) }] *)
Definition wrapping {A} (context : string) (o : outcome A) : outcome A :=
  match o with
  | Err e => Err (ErrWrap context e)
  | _ => o
  end.

Declare Scope go_scope.
Delimit Scope go_scope with go.
Notation "x <- o ;; k" := (obind o (fun x => k))
  (at level 100, o at next level, right associativity) : go_scope.
Open Scope go_scope.

Definition nilDeref {A} : outcome A :=
  Panic "invalid memory address or nil pointer dereference".

(** ** Bytes and slices *)

Definition bytes : Type := list Byte.byte.

(** [[]byte(s)] *)
Definition bytesOf (s : string) : bytes := String.list_byte_of_string s.

(** A Go slice seen from its user: the [len] elements, and the elements of the
    backing array between [len] and [cap]. *)
Record slice : Type := mkSlice { elems : bytes; spare : bytes }.

Definition sliceOf (b : bytes) : slice := {| elems := b; spare := [] |}.
Definition len (s : slice) : nat := length (elems s).
Definition cap (s : slice) : nat := length (elems s) + length (spare s).

Definition boundsPanic {A} : outcome A := Panic "slice bounds out of range".

(** [s[:n]]: the upper bound is checked against [cap(s)]. *)
Definition sliceTo (s : slice) (n : nat) : outcome bytes :=
  if n <=? cap s then Ok (take n (elems s ++ spare s)) else boundsPanic.

(** [s[n:]]: the lower bound is checked against [len(s)]. *)
Definition sliceFrom (s : slice) (n : nat) : outcome bytes :=
  if n <=? len s then Ok (drop n (elems s)) else boundsPanic.

(** ** strings and path/filepath *)

(** [stripSuffix s suffix = Some p] exactly when [s = p ++ suffix]. *)
Fixpoint stripSuffix (s suffix : string) : option string :=
  if String.eqb s suffix then Some ""
  else match s with
       | "" => None
       | String c s' => String c <$> stripSuffix s' suffix
       end.

Definition HasSuffix (s suffix : string) : bool :=
  bool_decide (is_Some (stripSuffix s suffix)).

Definition TrimSuffix (s suffix : string) : string :=
  default s (stripSuffix s suffix).

(** [filepath.Join(dir, name)] for an entry [name] of a directory [dir]
    given as a clean, non-empty path. *)
Definition Join (dir name : string) : string := dir +:+ "/" +:+ name.

(** [filepath.Base]: the last element of the path, trailing separators
    dropped; "." for the empty path and "/" for a path of separators only.
    The scan keeps the element being read in [cur] and the last completed
    non-empty element in [prev]. *)
Fixpoint lastElement (s cur prev : string) : string :=
  match s with
  | "" => if String.eqb cur "" then prev else cur
  | String c s' =>
      if Ascii.eqb c "/"%char
      then lastElement s' "" (if String.eqb cur "" then prev else cur)
      else lastElement s' (cur +:+ String c "") prev
  end.

Definition Base (path : string) : string :=
  if String.eqb path "" then "."
  else let b := lastElement path "" "" in
       if String.eqb b "" then "/" else b.

(** ** Data model (nomad/structs) *)

(** Modelled from the spec: nomad/structs/keyring.go is not under src/; the
    records below follow section 3 of the specification and the fields that
    encrypter.go reads.  A Go pointer that may be nil is an [option]. *)

Definition EncryptionAlgorithmAES256GCM : string := "aes256-gcm".
Definition PubKeyAlgRS256 : string := "RS256".
Definition PubKeyAlgEdDSA : string := "EdDSA".
Definition PubKeyUseSig : string := "sig".

Inductive RootKeyState : Type :=
| RootKeyStateActive
| RootKeyStateInactive
| RootKeyStateDeprecated.

Module KEKProvider.
Record t : Type := mk { Provider : string; Name : string }.
End KEKProvider.

Module KEKProviderConfig.
Record t : Type := mk {
  Provider : string;
  Name : string;
  Config : gmap string string
}.
End KEKProviderConfig.

Module RootKeyMeta.
Record t : Type := mk {
  KeyID : string;
  Algorithm : string;
  CreateTime : Z;
  State : RootKeyState;
  KEKProviders : list (option KEKProvider.t);
  ModifyIndex : N
}.
End RootKeyMeta.

Module RootKey.
Record t : Type := mk {
  Meta : option RootKeyMeta.t;
  Key : bytes;
  RSAKey : bytes
}.
End RootKey.

Module KeyEncryptionKeyWrapper.
Record t : Type := mk {
  Meta : option RootKeyMeta.t;
  EncryptedDataEncryptionKey : bytes;
  EncryptedRSAKey : bytes;
  KeyEncryptionKey : bytes;
  Provider : string;
  ProviderName : string
}.
End KeyEncryptionKeyWrapper.

Module KeyringPublicKey.
Record t : Type := mk {
  KeyID : string;
  PublicKey : bytes;
  Algorithm : string;
  Use : string;
  CreateTime : Z
}.
End KeyringPublicKey.

(** Modelled from the spec: structs.IdentityClaims is not under src/.  The
    registered claims the specification names (issuer, subject, expiration,
    not-before) and the workload's own claims as a list of pairs. *)
Module IdentityClaims.
Record t : Type := mk {
  Issuer : string;
  Subject : string;
  Expiry : option Z;
  NotBefore : option Z;
  Workload : list (string * string)
}.
(** [claims.Issuer = issuer] *)
Definition setIssuer (issuer : string) (c : t) : t :=
  mk issuer (Subject c) (Expiry c) (NotBefore c) (Workload c).
End IdentityClaims.

(** Modelled from the spec: helper.IsUUID is not under src/.  A well-formed
    UUID is five groups of 8, 4, 4, 4 and 12 hexadecimal digits joined by
    hyphens. *)
Definition isHex (c : ascii) : bool :=
  match c with
  | "0" | "1" | "2" | "3" | "4" | "5" | "6" | "7" | "8" | "9"
  | "a" | "b" | "c" | "d" | "e" | "f"
  | "A" | "B" | "C" | "D" | "E" | "F" => true
  | _ => false
  end%char.

Fixpoint hexRun (n : nat) (s : string) : option string :=
  match n with
  | 0 => Some s
  | S n' =>
      match s with
      | String c s' => if isHex c then hexRun n' s' else None
      | "" => None
      end
  end.

Fixpoint uuidGroups (groups : list nat) (s : string) : bool :=
  match groups with
  | [] => false
  | [n] => match hexRun n s with Some "" => true | _ => false end
  | n :: rest =>
      match hexRun n s with
      | Some (String "-" s') => uuidGroups rest s'
      | _ => false
      end
  end.

Definition IsUUID (s : string) : bool := uuidGroups [8; 4; 4; 4; 12] s.

(** ** Library interfaces *)

(** crypto/cipher.AEAD.  [Seal] appends the sealed text to [dst]; [Open]
    appends the plaintext to [dst] or fails.  Both are called with a nonce of
    [NonceSize] bytes only. *)
Record AEAD : Type := mkAEAD {
  NonceSize : nat;
  Overhead : nat;
  Seal : bytes -> bytes -> bytes -> bytes -> bytes;
  Open : bytes -> bytes -> bytes -> bytes -> outcome bytes
}.

(** go-kms-wrapping's Wrapper, a blob being its ciphertext. *)
Module kms.
Record Wrapper : Type := mk {
  Encrypt : bytes -> outcome bytes;
  Decrypt : bytes -> outcome bytes
}.
End kms.

(** crypto/rsa keys. *)
Module rsa.
Record PublicKey : Type := mkPublic { N : Z; E : Z }.
Record PrivateKey : Type := mkPrivate {
  Public : PublicKey;
  D : Z;
  Primes : list Z
}.
End rsa.

(** A key handed to go-jose: [*rsa.PrivateKey] or [ed25519.PrivateKey] for
    signing, [*rsa.PublicKey] or [ed25519.PublicKey] for verifying. *)
Inductive signingKey : Type :=
| SignRSA (k : rsa.PrivateKey)
| SignEd25519 (k : bytes).

Inductive verifyKey : Type :=
| VerifyRSA (k : rsa.PublicKey)
| VerifyEd25519 (k : bytes).

Inductive SignatureAlgorithm : Type := RS256 | EdDSA.

(** [jose.SignerOptions] after [WithHeader("kid", kid).WithType("JWT")]. *)
Record SignerOptions : Type := mkOpts { kid : string; typ : string }.

(** The functions of other packages that encrypter.go calls.  They are
    parameters of the model; what a theorem needs of them is stated as a
    separate class of laws. *)
Class Libs : Type := {
  (* crypto/aes, crypto/cipher *)
  Block : Type;
  aes_NewCipher : bytes -> outcome Block;
  cipher_NewGCM : Block -> outcome AEAD;
  (* crypto/ed25519; its keys are byte slices *)
  ed25519_NewKeyFromSeed : bytes -> bytes;
  ed25519_Public : bytes -> bytes;
  (* crypto/x509 *)
  x509_ParsePKCS1PrivateKey : bytes -> outcome rsa.PrivateKey;
  x509_MarshalPKCS1PublicKey : rsa.PublicKey -> bytes;
  x509_ParsePKCS1PublicKey : bytes -> outcome rsa.PublicKey;
  (* go-kms-wrapping: aead.NewWrapper with SetConfig(WithKeyId(keyID)) and
     SetAesGcmKeyBytes(kek); the four external wrappers; Wrapper.SetConfig *)
  aead_NewWrapper : string -> bytes -> outcome kms.Wrapper;
  awskms_NewWrapper : kms.Wrapper;
  azurekeyvault_NewWrapper : kms.Wrapper;
  gcpckms_NewWrapper : kms.Wrapper;
  transit_NewWrapper : kms.Wrapper;
  SetConfig : kms.Wrapper -> gmap string string -> outcome kms.Wrapper;
  (* go-jose *)
  Signer : Type;
  JSONWebToken : Type;
  jose_NewSigner : SignatureAlgorithm -> signingKey -> SignerOptions -> outcome Signer;
  jwt_CompactSerialize : Signer -> IdentityClaims.t -> outcome string;
  jwt_ParseSigned : string -> outcome JSONWebToken;
  token_Claims : JSONWebToken -> verifyKey -> outcome IdentityClaims.t;
  claims_Validate : IdentityClaims.t -> outcome unit;
  (* helper/joseutil.KeyID and RootKeyMeta.Validate, of this repository but
     not under src/ *)
  joseutil_KeyID : JSONWebToken -> outcome string;
  RootKeyMeta_Validate : option RootKeyMeta.t -> outcome unit
}.

(** ** The keyring *)

(** [keyset] of encrypter.go. *)
Record keyset : Type := mkKeyset {
  rootKey : RootKey.t;
  cipher : AEAD;
  eddsaPrivateKey : bytes;
  rsaPrivateKey : option rsa.PrivateKey;
  rsaPKCS1PublicKey : bytes
}.

(** [Encrypter] of encrypter.go.  [providerConfigs] is [None] while the Go
    map is nil; the server the Go struct points to is the [Config] and the
    [World] below. *)
Record Encrypter : Type := mkEncrypter {
  providerConfigs : option (gmap string KEKProviderConfig.t);
  keystorePath : string;
  issuer : string;
  keyring : gmap string keyset
}.

Definition withKeyring (e : Encrypter) (k : gmap string keyset) : Encrypter :=
  mkEncrypter (providerConfigs e) (keystorePath e) (issuer e) k.

Definition withProviderConfigs (e : Encrypter)
    (m : option (gmap string KEKProviderConfig.t)) : Encrypter :=
  mkEncrypter m (keystorePath e) (issuer e) (keyring e).

(** The server configuration NewEncrypter reads. *)
Record Config : Type := mkConfig {
  OIDCIssuer : string;
  KEKProviderConfigs : list (option KEKProviderConfig.t)
}.

(** ** The keystore directory *)

(** The text of a keystore file, by what [json.Unmarshal] makes of it: the
    wrapper record [json.Marshal] wrote, or text that does not decode. *)
Inductive filetext : Type :=
| Json (kekWrapper : KeyEncryptionKeyWrapper.t)
| Garbage (raw : bytes).

Inductive node : Type :=
| Dir                      (* info.IsDir() *)
| File (text : filetext)
| Broken.                  (* an entry whose lstat or read fails *)

(** The keystore path on disk: absent, present but not usable as a directory,
    or a directory with its entries by name, in the lexical order in which
    [filepath.Walk] visits them. *)
Inductive fsroot : Type :=
| Missing
| Blocked
| Tree (entries : list (string * node)).

(** What the encrypter reads from outside: the state store's answer to
    [GetActiveRootKeyMeta], the keystore directory, and the random source as
    the bytes it will still deliver. *)
Record World : Type := mkWorld {
  activeRootKeyMeta : outcome (option RootKeyMeta.t);
  disk : fsroot;
  entropy : bytes
}.

Definition withDisk (w : World) (d : fsroot) : World :=
  mkWorld (activeRootKeyMeta w) d (entropy w).

Definition withEntropy (w : World) (r : bytes) : World :=
  mkWorld (activeRootKeyMeta w) (disk w) r.

(** Modelled from the spec: helper/crypto.Bytes is not under src/.  It reads
    [n] bytes from the cryptographic random source and fails on a short
    read. *)
Definition crypto_Bytes (w : World) (n : nat) : outcome bytes * World :=
  if n <=? length (entropy w)
  then (Ok (take n (entropy w)), withEntropy w (drop n (entropy w)))
  else (Err ErrEntropy, withEntropy w []).

Fixpoint lookupEntry (name : string) (entries : list (string * node)) : option node :=
  match entries with
  | [] => None
  | (n, x) :: rest => if String.eqb n name then Some x else lookupEntry name rest
  end.

(** Replace the entry [name], or add it at its place in the lexical order. *)
Fixpoint putEntry (name : string) (x : node) (entries : list (string * node))
    : list (string * node) :=
  match entries with
  | [] => [(name, x)]
  | (n, y) :: rest =>
      if String.eqb n name then (name, x) :: rest
      else if String.ltb name n then (name, x) :: (n, y) :: rest
      else (n, y) :: putEntry name x rest
  end.

(** [stripPrefix p s = Some r] exactly when [s = p ++ r]. *)
Fixpoint stripPrefix (p s : string) : option string :=
  match p, s with
  | "", _ => Some s
  | String a p', String b s' => if Ascii.eqb a b then stripPrefix p' s' else None
  | String _ _, "" => None
  end.

Fixpoint noSlash (s : string) : bool :=
  match s with
  | "" => true
  | String c s' => negb (Ascii.eqb c "/"%char) && noSlash s'
  end.

(** The entry of the directory [dir] that [path] names, if it names one. *)
Definition entryName (dir path : string) : option string :=
  match stripPrefix (dir +:+ "/") path with
  | Some name => if noSlash name then Some name else None
  | None => None
  end.

(** [os.MkdirAll(path, 0o700)] on the keystore path. *)
Definition os_MkdirAll (w : World) : outcome unit * World :=
  match disk w with
  | Missing => (Ok tt, withDisk w (Tree []))
  | Blocked => (Err (ErrLib "mkdir: not a directory"), w)
  | Tree _ => (Ok tt, w)
  end.

(** [os.ReadFile(path)], the keystore being at [dir]. *)
Definition os_ReadFile (w : World) (dir path : string) : outcome filetext :=
  match disk w, entryName dir path with
  | Tree entries, Some name =>
      match lookupEntry name entries with
      | Some (File text) => Ok text
      | Some Dir => Err (ErrLib "read: is a directory")
      | Some Broken => Err (ErrLib "read: input/output error")
      | None => Err (ErrLib "open: no such file or directory")
      end
  | Tree _, None =>
      if String.eqb path dir then Err (ErrLib "read: is a directory")
      else Err (ErrLib "open: no such file or directory")
  | _, _ => Err (ErrLib "open: no such file or directory")
  end.

(** [os.WriteFile(path, buf, 0o600)], the keystore being at [dir].  Only
    the entries of the keystore directory itself are modelled: a path that
    leads elsewhere is not written. *)
Definition os_WriteFile (w : World) (dir path : string) (buf : filetext)
    : outcome unit * World :=
  match disk w, entryName dir path with
  | Tree entries, Some name =>
      match lookupEntry name entries with
      | Some Dir => (Err (ErrLib "open: is a directory"), w)
      | Some Broken => (Err (ErrLib "write: input/output error"), w)
      | Some (File _) | None =>
          (Ok tt, withDisk w (Tree (putEntry name (File buf) entries)))
      end
  | _, _ => (Err (ErrLib "open: no such file or directory"), w)
  end.

Definition nomadKeystoreExtension : string := ".nks.json".

Definition keyIDHeader : string := "kid".

(** [ed25519.SeedSize] *)
Definition SeedSize : nat := 32.

Section Model.
Context {L : Libs}.

(** [ed25519.NewKeyFromSeed] panics on a seed that is not [SeedSize] long. *)
Definition NewKeyFromSeed (seed : bytes) : outcome bytes :=
  if length seed =? SeedSize then Ok (ed25519_NewKeyFromSeed seed)
  else Panic "ed25519: bad seed length".

(** Modelled from the spec: KeyringPublicKey.GetPublicKey is not under
    src/.  The verifier's key is chosen by the algorithm recorded with the
    public key: the PKCS#1 DER form for RS256, the raw Ed25519 public key
    for EdDSA. *)
Definition KeyringPublicKey_GetPublicKey (pubKey : KeyringPublicKey.t)
    : outcome verifyKey :=
  let alg := KeyringPublicKey.Algorithm pubKey in
  if String.eqb alg PubKeyAlgEdDSA then
    Ok (VerifyEd25519 (KeyringPublicKey.PublicKey pubKey))
  else if String.eqb alg PubKeyAlgRS256 then
    rsaPubKey <- wrapping "error parsing public key"
                   (x509_ParsePKCS1PublicKey (KeyringPublicKey.PublicKey pubKey)) ;;
    Ok (VerifyRSA rsaPubKey)
  else Err (ErrLib "unknown algorithm").

(** *** keysetByIDLocked, activeKeySet, GetKey, RemoveKey *)

Definition keysetByIDLocked (e : Encrypter) (keyID : string) : outcome keyset :=
  match keyring e !! keyID with
  | Some keyset => Ok keyset
  | None => Err (ErrNoSuchKey keyID)
  end.

Definition activeKeySet (e : Encrypter) (w : World) : outcome keyset :=
  keyMeta <- activeRootKeyMeta w ;;
  match keyMeta with
  | None => Err ErrNotInitialized
  | Some keyMeta => keysetByIDLocked e (RootKeyMeta.KeyID keyMeta)
  end.

Definition GetKey (e : Encrypter) (keyID : string) : outcome (bytes * bytes) :=
  keyset <- keysetByIDLocked e keyID ;;
  Ok (RootKey.Key (rootKey keyset), RootKey.RSAKey (rootKey keyset)).

Definition RemoveKey (e : Encrypter) (keyID : string) : outcome unit * Encrypter :=
  (Ok tt, withKeyring e (delete keyID (keyring e))).

(** [keyset.rootKey.Meta.KeyID] *)
Definition keysetID (ks : keyset) : outcome string :=
  match RootKey.Meta (rootKey ks) with
  | Some meta => Ok (RootKeyMeta.KeyID meta)
  | None => nilDeref
  end.

(** *** Encrypt, Decrypt *)

Definition Encrypt (e : Encrypter) (w : World) (cleartext : bytes)
    : outcome (bytes * string) * World :=
  match activeKeySet e w with
  | Ok keyset =>
      match crypto_Bytes w (NonceSize (cipher keyset)) with
      | (Ok nonce, w') =>
          (keyID <- keysetID keyset ;;
           let additional := bytesOf keyID in
           let ciphertext := Seal (cipher keyset) nonce nonce cleartext additional in
           Ok (ciphertext, keyID), w')
      | (Err err, w') =>
          (Err (ErrWrap "failed to generate key wrapper nonce" err), w')
      | (Panic m, w') => (Panic m, w')
      end
  | Err err => (Err err, w)
  | Panic m => (Panic m, w)
  end.

Definition Decrypt (e : Encrypter) (ciphertext : slice) (keyID : string)
    : outcome bytes :=
  keyset <- keysetByIDLocked e keyID ;;
  let nonceSize := NonceSize (cipher keyset) in
  nonce <- sliceTo ciphertext nonceSize ;;
  let additional := bytesOf keyID in
  rest <- sliceFrom ciphertext nonceSize ;;
  Open (cipher keyset) [] nonce rest additional.

(** *** addCipher, AddKey's first half *)

(** The keyset addCipher builds for a root key whose metadata is [meta]. *)
Definition newKeyset (rootKey : RootKey.t) (meta : RootKeyMeta.t) : outcome keyset :=
  aead <- (if String.eqb (RootKeyMeta.Algorithm meta) EncryptionAlgorithmAES256GCM
           then
             block <- wrapping "could not create cipher"
                        (aes_NewCipher (RootKey.Key rootKey)) ;;
             wrapping "could not create cipher" (cipher_NewGCM block)
           else Err (ErrInvalidAlgorithm (RootKeyMeta.Algorithm meta))) ;;
  ed25519Key <- NewKeyFromSeed (RootKey.Key rootKey) ;;
  let ks := mkKeyset rootKey aead ed25519Key None [] in
  if 0 <? length (RootKey.RSAKey rootKey) then
    rsaKey <- wrapping "error parsing rsa key"
                (x509_ParsePKCS1PrivateKey (RootKey.RSAKey rootKey)) ;;
    Ok (mkKeyset rootKey aead ed25519Key (Some rsaKey)
          (x509_MarshalPKCS1PublicKey (rsa.Public rsaKey)))
  else Ok ks.

(** On an error the keyring is as before, so the result is the new
    encrypter or the error. *)
Definition addCipher (e : Encrypter) (rootKey : option RootKey.t) : outcome Encrypter :=
  match rootKey with
  | None => Err ErrMissingMetadata
  | Some rootKey =>
      match RootKey.Meta rootKey with
      | None => Err ErrMissingMetadata
      | Some meta =>
          ks <- newKeyset rootKey meta ;;
          Ok (withKeyring e (<[RootKeyMeta.KeyID meta := ks]> (keyring e)))
      end
  end.

(** *** GetPublicKey *)

Definition GetPublicKey (e : Encrypter) (keyID : string) : outcome KeyringPublicKey.t :=
  ks <- keysetByIDLocked e keyID ;;
  match RootKey.Meta (rootKey ks) with
  | None => nilDeref
  | Some meta =>
      let createTime := RootKeyMeta.CreateTime meta in
      match rsaPrivateKey ks with
      | Some _ =>
          Ok (KeyringPublicKey.mk keyID (rsaPKCS1PublicKey ks) PubKeyAlgRS256
                PubKeyUseSig createTime)
      | None =>
          Ok (KeyringPublicKey.mk keyID (ed25519_Public (eddsaPrivateKey ks))
                PubKeyAlgEdDSA PubKeyUseSig createTime)
      end
  end.

(** *** SignClaims, VerifyClaim *)

(** [return "", "", err] with the [keyset, err] of the last call of
    activeKeySet: no error when that call succeeded. *)
Definition afterRetries (last : outcome keyset) : outcome (string * string) :=
  match last with
  | Ok _ => Ok ("", "")
  | Err err => Err err
  | Panic m => Panic m
  end.

(** The loop SignClaims enters when the first [activeKeySet] fails.
    [polls] counts the rounds in which the select finds the 5 s context
    still open (at most 100 with its 50 ms sleeps); [view n] is the keyring
    and the world as the [n]-th retry finds them; [last] holds the
    variables [keyset, err].  The [break] leaves the select, not the loop,
    so the only way out is [ctx.Done()], which returns two empty strings
    and the current [err]. *)
Fixpoint retryActiveKeySet (view : nat -> Encrypter * World) (n polls : nat)
    (last : outcome keyset) : outcome (string * string) :=
  match polls with
  | 0 => afterRetries last
  | S polls' =>
      match activeKeySet (view n).1 (view n).2 with
      | Panic m => Panic m
      | r => retryActiveKeySet view (S n) polls' r
      end
  end.

(** [if e.issuer != "" { claims.Issuer = e.issuer }]: the claims as
    SignClaims signs them. *)
Definition issued (e : Encrypter) (claims : IdentityClaims.t) : IdentityClaims.t :=
  if negb (String.eqb (issuer e) "")
  then IdentityClaims.setIssuer (issuer e) claims else claims.

(** SignClaims once it holds a keyset. *)
Definition signWith (e : Encrypter) (keyset : keyset) (claims : IdentityClaims.t)
    : outcome (string * string) :=
  let claims := issued e claims in
  keyID <- keysetID keyset ;;
  let opts := mkOpts keyID "JWT" in
  sig <- match rsaPrivateKey keyset with
         | Some rsaKey => jose_NewSigner RS256 (SignRSA rsaKey) opts
         | None => jose_NewSigner EdDSA (SignEd25519 (eddsaPrivateKey keyset)) opts
         end ;;
  raw <- jwt_CompactSerialize sig claims ;;
  Ok (raw, keyID).

Definition SignClaims (e : Encrypter) (w : World)
    (view : nat -> Encrypter * World) (polls : nat)
    (claims : IdentityClaims.t) : outcome (string * string) :=
  match activeKeySet e w with
  | Ok keyset => signWith e keyset claims
  | Err err => retryActiveKeySet view 0 polls (Err err)
  | Panic m => Panic m
  end.

Definition VerifyClaim (e : Encrypter) (tokenString : string)
    : outcome IdentityClaims.t :=
  token <- wrapping "failed to parse signed token" (jwt_ParseSigned tokenString) ;;
  keyID <- joseutil_KeyID token ;;
  pubKey <- GetPublicKey e keyID ;;
  typedPubKey <- KeyringPublicKey_GetPublicKey pubKey ;;
  claims <- wrapping "invalid signature" (token_Claims token typedPubKey) ;;
  _ <- wrapping "invalid claims" (claims_Validate claims) ;;
  Ok claims.

End Model.

Section Keystore.
Context {L : Libs}.

(** *** newKMSWrapper *)

(** [e.providerConfigs[key]]; reading a nil map finds nothing. *)
Definition providerConfig (e : Encrypter) (key : string) : option KEKProviderConfig.t :=
  match providerConfigs e with
  | Some m => m !! key
  | None => None
  end.

(** The code after the switch, reached by the four external providers. *)
Definition configured (e : Encrypter) (provider name : string) (wrapper : kms.Wrapper)
    : outcome kms.Wrapper :=
  match providerConfig e (provider +:+ name) with
  | Some config => SetConfig wrapper (KEKProviderConfig.Config config)
  | None => Ok wrapper
  end.

Definition newKMSWrapper (e : Encrypter) (provider name keyID : string) (kek : bytes)
    : outcome kms.Wrapper :=
  if String.eqb provider "awskms" then configured e provider name awskms_NewWrapper
  else if String.eqb provider "azurekeyvault" then
    configured e provider name azurekeyvault_NewWrapper
  else if String.eqb provider "gcpckms" then configured e provider name gcpckms_NewWrapper
  else if String.eqb provider "transit" then configured e provider name transit_NewWrapper
  else (* default: "aead" *) aead_NewWrapper keyID kek.

(** *** encryptDEK, saveKeyToStore *)

Definition encryptDEK (e : Encrypter) (w : World) (rootKey : RootKey.t)
    (provider : option KEKProvider.t)
    : outcome KeyEncryptionKeyWrapper.t * World :=
  match provider with
  | None => (Panic "can't encrypt DEK without a provider", w)
  | Some provider =>
      let '(kekResult, w') :=
        if String.eqb (KEKProvider.Provider provider) "aead"
           || String.eqb (KEKProvider.Provider provider) ""
        then crypto_Bytes w 32
        else (Ok [], w) in
      (kek <- wrapping "failed to generate key wrapper key" kekResult ;;
       match RootKey.Meta rootKey with
       | None => nilDeref
       | Some meta =>
           (* the error of newKMSWrapper is overwritten unread: after a
              failure the wrapper is nil and the call on it panics *)
           match newKMSWrapper e (KEKProvider.Provider provider)
                   (KEKProvider.Name provider) (RootKeyMeta.KeyID meta) kek with
           | Panic m => Panic m
           | Err _ => nilDeref
           | Ok wrapper =>
               rootBlob <- wrapping "failed to encrypt root key"
                             (kms.Encrypt wrapper (RootKey.Key rootKey)) ;;
               let kekWrapper rsaBlob :=
                 KeyEncryptionKeyWrapper.mk (RootKey.Meta rootKey) rootBlob rsaBlob kek
                   (KEKProvider.Provider provider) (KEKProvider.Name provider) in
               if 0 <? length (RootKey.RSAKey rootKey) then
                 rsaBlob <- wrapping "failed to encrypt rsa key"
                              (kms.Encrypt wrapper (RootKey.RSAKey rootKey)) ;;
                 Ok (kekWrapper rsaBlob)
               else Ok (kekWrapper [])
           end
       end, w')
  end.

(** The extension saveKeyToStore gives the file of [provider]. *)
Definition keyFileExtension (provider : KEKProvider.t) : string :=
  if negb (String.eqb (KEKProvider.Provider provider) "aead") then
    let extension := "." +:+ KEKProvider.Provider provider in
    let extension :=
      if negb (String.eqb (KEKProvider.Name provider) "")
      then extension +:+ "." +:+ KEKProvider.Name provider else extension in
    extension +:+ nomadKeystoreExtension
  else nomadKeystoreExtension.

(** The body of the loop of saveKeyToStore over [rootKey.Meta.KEKProviders]. *)
Fixpoint saveProviders (e : Encrypter) (w : World) (rootKey : RootKey.t)
    (keyID : string) (providers : list (option KEKProvider.t))
    : outcome unit * World :=
  match providers with
  | [] => (Ok tt, w)
  | provider :: rest =>
      match encryptDEK e w rootKey provider with
      | (Ok kekWrapper, w1) =>
          let buf := Json kekWrapper in
          match provider with
          | None => (nilDeref, w1)
          | Some p =>
              let path := Join (keystorePath e) (keyID +:+ keyFileExtension p) in
              match os_WriteFile w1 (keystorePath e) path buf with
              | (Ok _, w2) => saveProviders e w2 rootKey keyID rest
              | (Err err, w2) => (Err err, w2)
              | (Panic m, w2) => (Panic m, w2)
              end
          end
      | (Err err, w1) => (Err err, w1)
      | (Panic m, w1) => (Panic m, w1)
      end
  end.

Definition saveKeyToStore (e : Encrypter) (w : World) (rootKey : RootKey.t)
    : outcome unit * World :=
  match RootKey.Meta rootKey with
  | None => (nilDeref, w)
  | Some meta =>
      saveProviders e w rootKey (RootKeyMeta.KeyID meta) (RootKeyMeta.KEKProviders meta)
  end.

(** *** AddKey *)

(** addCipher, then saveKeyToStore; an error of the save is returned with
    the keyring as addCipher left it. *)
Definition AddKey (e : Encrypter) (w : World) (rootKey : option RootKey.t)
    : outcome unit * Encrypter * World :=
  match addCipher e rootKey with
  | Ok e' =>
      match rootKey with
      | Some rk =>
          let '(r, w') := saveKeyToStore e' w rk in (r, e', w')
      | None => (nilDeref, e', w)
      end
  | Err err => (Err err, e, w)
  | Panic m => (Panic m, e, w)
  end.

(** *** loadKeyFromStore *)

Definition json_Unmarshal (raw : filetext) : outcome KeyEncryptionKeyWrapper.t :=
  match raw with
  | Json kekWrapper => Ok kekWrapper
  | Garbage _ => Err (ErrLib "json: cannot unmarshal")
  end.

Definition loadKeyFromStore (e : Encrypter) (w : World) (path : string)
    : outcome RootKey.t :=
  raw <- os_ReadFile w (keystorePath e) path ;;
  kekWrapper <- json_Unmarshal raw ;;
  let meta := KeyEncryptionKeyWrapper.Meta kekWrapper in
  _ <- RootKeyMeta_Validate meta ;;
  match meta with
  | None => nilDeref
  | Some m =>
      wrapper <- wrapping "unable to create key wrapper cipher"
                   (newKMSWrapper e (KeyEncryptionKeyWrapper.Provider kekWrapper)
                      (KeyEncryptionKeyWrapper.ProviderName kekWrapper)
                      (RootKeyMeta.KeyID m)
                      (KeyEncryptionKeyWrapper.KeyEncryptionKey kekWrapper)) ;;
      key <- wrapping "unable to decrypt wrapped root key"
               (kms.Decrypt wrapper
                  (KeyEncryptionKeyWrapper.EncryptedDataEncryptionKey kekWrapper)) ;;
      rsaKey <- (if 0 <? length (KeyEncryptionKeyWrapper.EncryptedRSAKey kekWrapper)
                 then wrapping "unable to decrypt wrapped rsa key"
                        (kms.Decrypt wrapper
                           (KeyEncryptionKeyWrapper.EncryptedRSAKey kekWrapper))
                 else Ok []) ;;
      Ok (RootKey.mk meta key rsaKey)
  end.

(** *** loadKeystore *)

(** The function loadKeystore hands to [filepath.Walk]: [info] is the
    entry at [path], [Broken] standing for an [err] handed in by Walk. *)
Definition walkFn (e : Encrypter) (w : World) (path : string) (info : node)
    : outcome unit * Encrypter :=
  match info with
  | Broken => (Err (ErrWrap "could not read path from keystore" (ErrLib "lstat")), e)
  | _ =>
      if negb (String.eqb path (keystorePath e))
         && match info with Dir => true | _ => false end
      then (Err SkipDir, e)
      else if negb (HasSuffix path nomadKeystoreExtension) then (Ok tt, e)
      else
        let id := TrimSuffix (Base path) nomadKeystoreExtension in
        if negb (IsUUID id) then (Ok tt, e)
        else
          match loadKeyFromStore e w path with
          | Ok key =>
              match RootKey.Meta key with
              | None => (nilDeref, e)
              | Some meta =>
                  if negb (String.eqb (RootKeyMeta.KeyID meta) id)
                  then (Err (ErrMismatch (RootKeyMeta.KeyID meta) path), e)
                  else
                    match addCipher e (Some key) with
                    | Ok e' => (Ok tt, e')
                    | Err err =>
                        (Err (ErrWrap "could not add key file to keystore" err), e)
                    | Panic m => (Panic m, e)
                    end
              end
          | Err err => (Err (ErrWrap "could not load key file from keystore" err), e)
          | Panic m => (Panic m, e)
          end
  end.

(** [filepath.Walk] below the root: the entries in order; a directory whose
    visit answers [SkipDir] is passed over, any other error ends the walk. *)
Fixpoint walkEntries (e : Encrypter) (w : World) (entries : list (string * node))
    : outcome unit * Encrypter :=
  match entries with
  | [] => (Ok tt, e)
  | (name, info) :: rest =>
      match walkFn e w (Join (keystorePath e) name) info with
      | (Ok _, e') => walkEntries e' w rest
      | (Err SkipDir, e') =>
          match info with
          | Broken => walkEntries e' w rest
          | Dir => walkEntries e' w rest
          | File _ => (Err SkipDir, e')
          end
      | (Err err, e') => (Err err, e')
      | (Panic m, e') => (Panic m, e')
      end
  end.

(** [filepath.Walk(root, fn)] on the keystore directory: the root first,
    then its entries; a [SkipDir] that reaches the top is no error. *)
Definition Walk (e : Encrypter) (w : World) : outcome unit * Encrypter :=
  match disk w with
  | Tree entries =>
      match walkFn e w (keystorePath e) Dir with
      | (Ok _, e') =>
          match walkEntries e' w entries with
          | (Err SkipDir, e'') => (Ok tt, e'')
          | r => r
          end
      | (Err SkipDir, e') => (Ok tt, e')
      | r => r
      end
  | _ => walkFn e w (keystorePath e) Broken
  end.

Definition loadKeystore (e : Encrypter) (w : World)
    : outcome unit * Encrypter * World :=
  match os_MkdirAll w with
  | (Ok _, w') => (Walk e w', w')
  | (Err err, w') => (Err err, e, w')
  | (Panic m, w') => (Panic m, e, w')
  end.

(** *** NewEncrypter *)

(** The loop of NewEncrypter over [srv.config.KEKProviderConfigs]:
    [encrypter.providerConfigs[provider.Provider+provider.Name] = provider]. *)
Fixpoint registerProviders (encrypter : Encrypter)
    (providers : list (option KEKProviderConfig.t)) : outcome Encrypter :=
  match providers with
  | [] => Ok encrypter
  | provider :: rest =>
      match provider with
      | None => nilDeref
      | Some p =>
          match providerConfigs encrypter with
          | None => Panic "assignment to entry in nil map"
          | Some m =>
              registerProviders
                (withProviderConfigs encrypter
                   (Some (<[KEKProviderConfig.Provider p +:+ KEKProviderConfig.Name p := p]> m)))
                rest
          end
      end
  end.

Definition NewEncrypter (config : Config) (w : World) (keystorePath : string)
    : outcome Encrypter * World :=
  let encrypter := mkEncrypter None keystorePath (OIDCIssuer config) ∅ in
  match registerProviders encrypter (KEKProviderConfigs config) with
  | Ok encrypter =>
      match loadKeystore encrypter w with
      | (Ok _, e', w') => (Ok e', w')
      | (Err err, _, w') => (Err err, w')
      | (Panic m, _, w') => (Panic m, w')
      end
  | Err err => (Err err, w)
  | Panic m => (Panic m, w)
  end.

End Keystore.

(** ** The keyring replicator *)

(** Modelled from the spec: structs.KeyringGetRootKeyRequest is not under
    src/; the fields are those replicateKey sets. *)
Module KeyringGetRootKeyRequest.
Record t : Type := mk {
  KeyID : string;
  Region : string;
  MinQueryIndex : N;
  AllowStale : bool
}.
(** [getReq.AllowStale = true] *)
Definition stale (getReq : t) : t :=
  mk (KeyID getReq) (Region getReq) (MinQueryIndex getReq) true.
End KeyringGetRootKeyRequest.

(** What a call of "Keyring.Get" leaves with its caller: the response
    filled in, its [Key] being nil when the server does not hold the key, or
    an error and the response as it was. *)
Inductive KeyringGetResult : Type :=
| Reply (key : option RootKey.t)
| Failed (err : error).

Definition KeyringGet : Type := KeyringGetRootKeyRequest.t -> KeyringGetResult.

(** The server as the replicator sees it: its region, [srv.RPC], which
    the leader of the region answers, [srv.forwardServer] for each peer of
    [srv.localPeers] in the order in which the range over the map visits
    them, and the root key metadata of the state store. *)
Record Server : Type := mkServer {
  Region : string;
  RPC : KeyringGet;
  localPeers : list KeyringGet;
  RootKeyMetas : outcome (list RootKeyMeta.t)
}.

(** [a - b] on uint64 *)
Definition sub64 (a b : N) : N := ((a + 2 ^ 64 - b mod 2 ^ 64) mod 2 ^ 64)%N.

Section Replication.
Context {L : Libs}.

Definition getAllPeers (srv : Server) : list KeyringGet := localPeers srv.

(** The loop of replicateKey over the peers, on the variables [err] and
    [getResp.Key]; it breaks at the first call without an error that leaves
    a key in the response. *)
Fixpoint askPeers (peers : list KeyringGet) (getReq : KeyringGetRootKeyRequest.t)
    (err : option error) (key : option RootKey.t)
    : option error * option RootKey.t :=
  match peers with
  | [] => (err, key)
  | peer :: rest =>
      match peer getReq with
      | Reply (Some k) => (None, Some k)
      | Reply None => askPeers rest getReq None None
      | Failed err' => askPeers rest getReq (Some err') key
      end
  end.

(** The text [%v] prints for [err]. *)
Definition errOrNil (err : option error) : error := default (ErrLib "<nil>") err.

(** The request replicateKey builds for [keyMeta]. *)
Definition getReqFor (srv : Server) (keyMeta : RootKeyMeta.t)
    : KeyringGetRootKeyRequest.t :=
  KeyringGetRootKeyRequest.mk (RootKeyMeta.KeyID keyMeta) (Region srv)
    (sub64 (RootKeyMeta.ModifyIndex keyMeta) 1) false.

(** The first half of replicateKey: the call that the leader answers and,
    after an error or a response without a key, the calls to the peers with
    [AllowStale] set.  The result is the variables [err] and
    [getResp.Key]. *)
Definition fetchKey (srv : Server) (keyMeta : RootKeyMeta.t)
    : option error * option RootKey.t :=
  let getReq := getReqFor srv keyMeta in
  match RPC srv getReq with
  | Reply (Some k) => (None, Some k)
  | Reply None =>
      askPeers (getAllPeers srv) (KeyringGetRootKeyRequest.stale getReq) None None
  | Failed err =>
      askPeers (getAllPeers srv) (KeyringGetRootKeyRequest.stale getReq) (Some err) None
  end.

Definition replicateKey (e : Encrypter) (w : World) (srv : Server)
    (keyMeta : RootKeyMeta.t) : outcome unit * Encrypter * World :=
  match fetchKey srv keyMeta with
  | (err, None) =>
      (Err (ErrWrap "failed to fetch key from any peer" (errOrNil err)), e, w)
  | (_, Some k) =>
      let '(r, e', w') := AddKey e w (Some k) in
      (wrapping "failed to add key to keyring" r, e', w')
  end.

(** [err == nil && len(key) > 0] for the result of [GetKey(keyID)]. *)
Definition held (e : Encrypter) (keyID : string) : bool :=
  match GetKey e keyID with
  | Ok (key, _) => 0 <? length key
  | _ => false
  end.

(** The inner loop of run over the root key metadata of the state store:
    a key the keyring holds is passed by, any other is replicated; an error
    of replicateKey is logged and the loop goes on. *)
Fixpoint replicateMetas (e : Encrypter) (w : World) (srv : Server)
    (metas : list RootKeyMeta.t) : outcome unit * Encrypter * World :=
  match metas with
  | [] => (Ok tt, e, w)
  | keyMeta :: rest =>
      if held e (RootKeyMeta.KeyID keyMeta) then replicateMetas e w srv rest
      else
        match replicateKey e w srv keyMeta with
        | (Panic m, e', w') => (Panic m, e', w')
        | (_, e', w') => replicateMetas e' w' srv rest
        end
  end.

(** run: one element of [rounds] for each pass of the outer loop that the
    rate limiter lets through before the shutdown, holding the server as
    that pass finds it.  A failure to list the metadata is logged and the
    loop goes on. *)
Fixpoint run (e : Encrypter) (w : World) (rounds : list Server)
    : outcome unit * Encrypter * World :=
  match rounds with
  | [] => (Ok tt, e, w)
  | srv :: rest =>
      match RootKeyMetas srv with
      | Ok metas =>
          match replicateMetas e w srv metas with
          | (Panic m, e', w') => (Panic m, e', w')
          | (_, e', w') => run e' w' rest
          end
      | Err _ => run e w rest
      | Panic m => (Panic m, e, w)
      end
  end.

End Replication.

(** ** Reference instances of the library interfaces

    Small executable stand-ins for the libraries, used to run the model on
    concrete inputs.  They keep the framing and the error behaviour of the
    real packages and none of their secrecy. *)

Module Reference.

Fixpoint bytes_eqb (a b : bytes) : bool :=
  match a, b with
  | [], [] => true
  | x :: a', y :: b' => Byte.eqb x y && bytes_eqb a' b'
  | _, _ => false
  end.

Definition validAESKey (key : bytes) : bool :=
  (length key =? 16) || (length key =? 24) || (length key =? 32).

(** *** An AEAD with the framing of AES-GCM

    A 12-byte nonce and a 16-byte tag computed from the additional data,
    the nonce and the key. *)
Definition tag16 (key nonce aad : bytes) : bytes :=
  take 16 (aad ++ nonce ++ key ++ repeat Byte.x00 16).

Definition gcmSeal (key dst nonce plaintext aad : bytes) : bytes :=
  dst ++ plaintext ++ tag16 key nonce aad.

Definition gcmOpen (key dst nonce ciphertext aad : bytes) : outcome bytes :=
  let n := length ciphertext - 16 in
  if (16 <=? length ciphertext)
     && bytes_eqb (drop n ciphertext) (tag16 key nonce aad)
  then Ok (dst ++ take n ciphertext)
  else Err ErrCiphertextInvalid.

Definition gcm (key : bytes) : AEAD :=
  mkAEAD 12 16 (gcmSeal key) (gcmOpen key).

(** *** An AEAD whose sealed text carries its additional data whole

    The additional data is framed byte by byte in front of the plaintext,
    so text sealed under one additional data never opens under another. *)
Definition frame (l : bytes) : bytes :=
  concat (map (fun b => [Byte.x01; b]) l) ++ [Byte.x00].

Fixpoint unframe (fuel : nat) (l : bytes) : option (bytes * bytes) :=
  match fuel with
  | 0 => None
  | S fuel' =>
      match l with
      | Byte.x00 :: rest => Some ([], rest)
      | Byte.x01 :: b :: rest =>
          match unframe fuel' rest with
          | Some (body, tail) => Some (b :: body, tail)
          | None => None
          end
      | _ => None
      end
  end.




(** *** Key wrapping *)

Definition wrapperWith (secret : bytes) : kms.Wrapper :=
  kms.mk
    (fun plaintext => Ok (frame secret ++ plaintext))
    (fun blob =>
       match unframe (S (length blob)) blob with
       | Some (s, plaintext) =>
           if bytes_eqb s secret then Ok plaintext
           else Err (ErrLib "kms: decryption failed")
       | None => Err (ErrLib "kms: decryption failed")
       end).

(** *** RSA keys and their PKCS#1 forms *)

Definition parsePrivate (der : bytes) : outcome rsa.PrivateKey :=
  match der with
  | Byte.x30 :: body =>
      Ok (rsa.mkPrivate (rsa.mkPublic (Z.of_nat (length body)) 65537) 1 [])
  | _ => Err (ErrLib "x509: failed to parse private key")
  end.

Definition marshalPublic (pub : rsa.PublicKey) : bytes :=
  Byte.x30 :: repeat Byte.x01 (Z.to_nat (rsa.N pub)).

Definition parsePublic (der : bytes) : outcome rsa.PublicKey :=
  match der with
  | Byte.x30 :: body => Ok (rsa.mkPublic (Z.of_nat (length body)) 65537)
  | _ => Err (ErrLib "x509: failed to parse public key")
  end.

(** *** Tokens

    A token is the binary numeral of the countable code of its header,
    claims and the verifying key it was made for. *)
Fixpoint pos_to_bits (p : positive) : string :=
  match p with
  | xH => ""
  | xO p' => String "0" (pos_to_bits p')
  | xI p' => String "1" (pos_to_bits p')
  end.

Fixpoint bits_to_pos (s : string) : positive :=
  match s with
  | String "0" s' => xO (bits_to_pos s')
  | String "1" s' => xI (bits_to_pos s')
  | _ => xH
  end.

Definition claimsCode : Type :=
  string * string * option Z * option Z * list (string * string).

Definition keyCode : Type := bool * Z * Z * list N.

Definition tokenCode : Type := bool * string * claimsCode * keyCode.

Definition codeOfClaims (c : IdentityClaims.t) : claimsCode :=
  (IdentityClaims.Issuer c, IdentityClaims.Subject c, IdentityClaims.Expiry c,
   IdentityClaims.NotBefore c, IdentityClaims.Workload c).

Definition claimsOfCode (c : claimsCode) : IdentityClaims.t :=
  let '(iss, sub, exp, nbf, wl) := c in IdentityClaims.mk iss sub exp nbf wl.

Definition codeOfKey (k : verifyKey) : keyCode :=
  match k with
  | VerifyRSA pub => (true, rsa.N pub, rsa.E pub, [])
  | VerifyEd25519 pub => (false, 0%Z, 0%Z, map Byte.to_N pub)
  end.

Definition keyCode_eqb (a b : keyCode) : bool := bool_decide (a = b).

Definition publicOf (ed25519Public : bytes -> bytes) (k : signingKey) : verifyKey :=
  match k with
  | SignRSA priv => VerifyRSA (rsa.Public priv)
  | SignEd25519 priv => VerifyEd25519 (ed25519Public priv)
  end.

Definition edPublic (priv : bytes) : bytes := drop 32 priv.

Definition newSigner (alg : SignatureAlgorithm) (key : signingKey) (opts : SignerOptions)
    : outcome (SignatureAlgorithm * signingKey * SignerOptions) :=
  match alg, key with
  | RS256, SignRSA _ | EdDSA, SignEd25519 _ => Ok (alg, key, opts)
  | _, _ => Err (ErrLib "go-jose: unsupported key type/format")
  end.

Definition compactSerialize (s : SignatureAlgorithm * signingKey * SignerOptions)
    (c : IdentityClaims.t) : outcome string :=
  let '(alg, key, opts) := s in
  let code : tokenCode :=
    (match alg with RS256 => true | EdDSA => false end, kid opts, codeOfClaims c,
     codeOfKey (publicOf edPublic key)) in
  Ok (pos_to_bits (encode code)).

Definition parseSigned (raw : string) : outcome tokenCode :=
  match decode (bits_to_pos raw) with
  | Some code => Ok code
  | None => Err (ErrLib "go-jose: compact JWS format must have three parts")
  end.

Definition tokenClaims (token : tokenCode) (key : verifyKey) : outcome IdentityClaims.t :=
  let '(_, _, c, k) := token in
  if keyCode_eqb k (codeOfKey key) then Ok (claimsOfCode c)
  else Err (ErrLib "go-jose: error in cryptographic primitive").

Definition tokenKeyID (token : tokenCode) : outcome string :=
  let '(_, keyID, _, _) := token in
  if String.eqb keyID "" then Err (ErrLib "missing key ID header") else Ok keyID.

(** Validation against a fixed clock with a leeway of one minute. *)
Definition now : Z := 1700000000.

Definition validate (c : IdentityClaims.t) : outcome unit :=
  match IdentityClaims.NotBefore c, IdentityClaims.Expiry c with
  | Some nbf, _ =>
      if (now + 60 <? nbf)%Z then Err (ErrLib "token not valid yet (nbf)")
      else match IdentityClaims.Expiry c with
           | Some exp =>
               if (exp <? now - 60)%Z then Err (ErrLib "token is expired (exp)")
               else Ok tt
           | None => Ok tt
           end
  | None, Some exp =>
      if (exp <? now - 60)%Z then Err (ErrLib "token is expired (exp)") else Ok tt
  | None, None => Ok tt
  end.

Definition validateMeta (meta : option RootKeyMeta.t) : outcome unit :=
  match meta with
  | None => Err (ErrLib "root key metadata is required")
  | Some m =>
      if negb (IsUUID (RootKeyMeta.KeyID m)) then Err (ErrLib "root key UUID is required")
      else if String.eqb (RootKeyMeta.Algorithm m) ""
      then Err (ErrLib "root key algorithm is required")
      else Ok tt
  end.

(** The libraries around a choice of AEAD for [cipher.NewGCM]. *)
Definition libsWith (newGCM : bytes -> AEAD) : Libs := {|
  Block := bytes;
  aes_NewCipher key :=
    if validAESKey key then Ok key else Err (ErrLib "crypto/aes: invalid key size");
  cipher_NewGCM block := Ok (newGCM block);
  ed25519_NewKeyFromSeed seed := seed ++ rev seed;
  ed25519_Public := edPublic;
  x509_ParsePKCS1PrivateKey := parsePrivate;
  x509_MarshalPKCS1PublicKey := marshalPublic;
  x509_ParsePKCS1PublicKey := parsePublic;
  aead_NewWrapper keyID kek :=
    if validAESKey kek then Ok (wrapperWith kek)
    else Err (ErrLib "crypto/aes: invalid key size");
  awskms_NewWrapper := wrapperWith (bytesOf "awskms");
  azurekeyvault_NewWrapper := wrapperWith (bytesOf "azurekeyvault");
  gcpckms_NewWrapper := wrapperWith (bytesOf "gcpckms");
  transit_NewWrapper := wrapperWith (bytesOf "transit");
  SetConfig wrapper _ := Ok wrapper;
  Signer := SignatureAlgorithm * signingKey * SignerOptions;
  JSONWebToken := tokenCode;
  jose_NewSigner := newSigner;
  jwt_CompactSerialize := compactSerialize;
  jwt_ParseSigned := parseSigned;
  token_Claims := tokenClaims;
  claims_Validate := validate;
  joseutil_KeyID := tokenKeyID;
  RootKeyMeta_Validate := validateMeta
|}.

Definition libs : Libs := libsWith gcm.

End Reference.

(** ** What the theorems assume of the libraries *)

Section Laws.
Context (L : Libs).

(** The key a verifier needs for a token signed with [key]. *)
Definition publicKeyOf (key : signingKey) : verifyKey :=
  match key with
  | SignRSA priv => VerifyRSA (rsa.Public priv)
  | SignEd25519 priv => VerifyEd25519 (ed25519_Public priv)
  end.

(** AES-GCM as [cipher.NewGCM] returns it: a 12-byte nonce, and [Seal]
    appending to its destination. *)
Class GCMFraming : Prop := {
  gcm_NonceSize : forall block c, cipher_NewGCM block = Ok c -> NonceSize c = 12;
  gcm_Seal_dst : forall block c dst nonce plaintext aad,
    cipher_NewGCM block = Ok c ->
    Seal c dst nonce plaintext aad = dst ++ Seal c [] nonce plaintext aad
}.

(** Functional correctness of the AEAD: a 16-byte tag, and [Open] undoing
    [Seal] under the same nonce and additional data. *)
Class GCMCorrect : Prop := {
  gcm_correct_framing :: GCMFraming;
  gcm_Seal_length : forall block c nonce plaintext aad,
    cipher_NewGCM block = Ok c -> length nonce = 12 ->
    length (Seal c [] nonce plaintext aad) = length plaintext + 16;
  gcm_Open_Seal : forall block c nonce plaintext aad,
    cipher_NewGCM block = Ok c -> length nonce = 12 ->
    Open c [] nonce (Seal c [] nonce plaintext aad) aad = Ok plaintext
}.


(** go-jose and x509: a serialized token parses, carries the key ID of its
    signer (which joseutil.KeyID finds when it is not empty) and yields its
    claims under the signer's public key; a marshalled RSA public key
    parses back. *)
Class JoseCorrect : Prop := {
  jose_roundtrip : forall alg key opts sig claims raw,
    jose_NewSigner alg key opts = Ok sig ->
    jwt_CompactSerialize sig claims = Ok raw ->
    kid opts <> "" ->
    exists token,
      jwt_ParseSigned raw = Ok token /\
      joseutil_KeyID token = Ok (kid opts) /\
      token_Claims token (publicKeyOf key) = Ok claims;
  x509_public_roundtrip : forall der priv,
    x509_ParsePKCS1PrivateKey der = Ok priv ->
    x509_ParsePKCS1PublicKey (x509_MarshalPKCS1PublicKey (rsa.Public priv))
    = Ok (rsa.Public priv)
}.

(** The built-in AEAD wrapper: what it wraps it unwraps, and a wrapped blob
    is never empty (it carries a nonce and a tag). *)
Class KMSCorrect : Prop := {
  aead_unwrap : forall keyID kek wrapper plaintext blob,
    aead_NewWrapper keyID kek = Ok wrapper ->
    kms.Encrypt wrapper plaintext = Ok blob ->
    kms.Decrypt wrapper blob = Ok plaintext /\ 0 < length blob
}.

(** The keyring invariant: the keyset filed under [id] is the one
    addCipher builds from its own root key, whose metadata names [id]. *)
Definition keyset_ok (id : string) (ks : keyset) : Prop :=
  exists meta,
    RootKey.Meta (rootKey ks) = Some meta /\
    RootKeyMeta.KeyID meta = id /\
    newKeyset (rootKey ks) meta = Ok ks.

Definition keyring_ok (e : Encrypter) : Prop :=
  forall id ks, keyring e !! id = Some ks -> keyset_ok id ks.

End Laws.

Arguments publicKeyOf {L} key.
Arguments keyset_ok {L} id ks.
Arguments keyring_ok {L} e.

Definition externalProvider (provider : string) : bool :=
  String.eqb provider "awskms" || String.eqb provider "azurekeyvault"
  || String.eqb provider "gcpckms" || String.eqb provider "transit".

(** What makes [walkFn] pass over an entry without an error: a
    subdirectory, a file whose name does not end in the extension, or one
    whose name before the extension is not a UUID. *)
Definition passedOver (entry : string * node) : bool :=
  match entry.2 with
  | Dir => true
  | File _ =>
      negb (HasSuffix entry.1 nomadKeystoreExtension)
      || negb (IsUUID (TrimSuffix entry.1 nomadKeystoreExtension))
  | Broken => false
  end.

(** A wrapper that unwraps what it wrapped, its blobs never empty. *)
Definition unwraps (wrapper : kms.Wrapper) : Prop :=
  forall plaintext blob,
    kms.Encrypt wrapper plaintext = Ok blob ->
    kms.Decrypt wrapper blob = Ok plaintext /\ 0 < length blob.

(** The providers for which encryptDEK draws a key encryption key. *)
Definition builtinProvider (provider : string) : bool :=
  String.eqb provider "aead" || String.eqb provider "".

(** The key a call of "Keyring.Get" leaves in the response. *)
Definition keyOf (a : KeyringGetResult) : option RootKey.t :=
  match a with
  | Reply key => key
  | Failed _ => None
  end.

(** The answers to the calls replicateKey can make for [keyMeta], in their
    order: the leader's, then each peer's. *)
Definition answersFor (srv : Server) (keyMeta : RootKeyMeta.t) : list KeyringGetResult :=
  RPC srv (getReqFor srv keyMeta)
  :: ((fun peer : KeyringGet =>
         peer (KeyringGetRootKeyRequest.stale (getReqFor srv keyMeta)))
        <$> localPeers srv).

(** The variable [err] of replicateKey after a run of calls that left no
    key: the error of the last call, or nil when that call succeeded;
    [err] when there was no call. *)
Definition lastError (err : option error) (answers : list KeyringGetResult)
    : option error :=
  match last answers with
  | Some (Failed err') => Some err'
  | Some (Reply _) => None
  | None => err
  end.

(** A server that answers "Keyring.Get" with the key it was asked for. *)
Definition answersRequested (get : KeyringGet) : Prop :=
  forall getReq key meta,
    get getReq = Reply (Some key) -> RootKey.Meta key = Some meta ->
    RootKeyMeta.KeyID meta = KeyringGetRootKeyRequest.KeyID getReq.

Definition faithful (srv : Server) : Prop :=
  answersRequested (RPC srv) /\ Forall answersRequested (localPeers srv).


(** ** Sample data *)

Module Sample.
Import Reference.

Definition K1 : string := "6ba7b810-9dad-11d1-80b4-00c04fd430c8".
Definition K2 : string := "6ba7b811-9dad-11d1-80b4-00c04fd430c8".

Definition dek (b : Byte.byte) : bytes := repeat b 32.

Definition metaOf (keyID : string) (providers : list (option KEKProvider.t))
    : RootKeyMeta.t :=
  RootKeyMeta.mk keyID EncryptionAlgorithmAES256GCM 1700000000 RootKeyStateActive
    providers 7.

Definition aeadProvider : option KEKProvider.t := Some (KEKProvider.mk "aead" "").
Definition awsProvider : option KEKProvider.t := Some (KEKProvider.mk "awskms" "").

Definition meta1 : RootKeyMeta.t := metaOf K1 [aeadProvider].
Definition meta2 : RootKeyMeta.t := metaOf K2 [aeadProvider].
Definition metaAWS : RootKeyMeta.t := metaOf K1 [awsProvider].

(** K1 has no RSA key, K2 has one. *)
Definition key1 : RootKey.t := RootKey.mk (Some meta1) (dek Byte.x11) [].
Definition key2 : RootKey.t :=
  RootKey.mk (Some meta2) (dek Byte.x22) [Byte.x30; Byte.x82; Byte.x04; Byte.xa4].
Definition keyAWS : RootKey.t := RootKey.mk (Some metaAWS) (dek Byte.x11) [].

Definition keystore : string := "/var/nomad/server/keystore".

Definition empty : Encrypter := mkEncrypter None keystore "" ∅.

Definition world (active : option RootKeyMeta.t) (d : fsroot) : World :=
  mkWorld (Ok active) d (repeat Byte.x07 64).

(** An encrypter holding K1 and K2, under each choice of AEAD. *)
Definition ringOf (L : Libs) : Encrypter :=
  match addCipher empty (Some key1) with
  | Ok e => match addCipher e (Some key2) with Ok e' => e' | _ => e end
  | _ => empty
  end.

Definition ring : Encrypter := ringOf libs.

Definition claims : IdentityClaims.t :=
  IdentityClaims.mk "" "s1" (Some 1700003600%Z) None [("nomad_job_id", "example")].

(** The wrapper record of K1 under the built-in AEAD wrapper, and the same
    record naming a provider nobody knows. *)
Definition kek : bytes := repeat Byte.x07 32.

Definition wrapped (provider : string) : KeyEncryptionKeyWrapper.t :=
  KeyEncryptionKeyWrapper.mk (Some meta1) (frame kek ++ dek Byte.x11) [] kek provider "".

Definition fileOf (name : string) : string := Join keystore name.

Definition hello : bytes := bytesOf "hello".

(** K1 is the active key, the keystore directory is empty. *)
Definition world1 : World := world (Some meta1) (Tree []).

(** K2, the key with RSA material, is the active key. *)
Definition world2 : World := world (Some meta2) (Tree []).

(** A node that receives its keys between the second and the third retry
    of SignClaims. *)
Definition late (n : nat) : Encrypter * World :=
  if n <? 2 then (empty, world1) else (ring, world1).
End Sample.

(** Sample data for the keystore and the replicator. *)
Module SampleCluster.
Import Reference Sample.

Definition K3 : string := "6ba7b812-9dad-11d1-80b4-00c04fd430c8".

Definition meta3 : RootKeyMeta.t := metaOf K3 [aeadProvider].

(** K1 with key material of 16 bytes. *)
Definition key16 : RootKey.t := RootKey.mk (Some meta1) (repeat Byte.x11 16) [].

(** K1 under a provider nobody knows, and under two providers. *)
Definition oddProvider : KEKProvider.t := KEKProvider.mk "nonesuch" "".
Definition metaOdd : RootKeyMeta.t := metaOf K1 [Some oddProvider].
Definition keyOdd : RootKey.t := RootKey.mk (Some metaOdd) (dek Byte.x11) [].


(** The keystore directory after AddKey of K1 and of K2 on a fresh server. *)
Definition saved : World :=
  let '(_, e1, w1) := AddKey (L := libs) empty world1 (Some key1) in
  let '(_, _, w2) := AddKey (L := libs) e1 w1 (Some key2) in
  world None (disk w2).

(** A server that holds [keys] and answers "Keyring.Get" from them; one
    that is down; one that answers K2 whatever it is asked. *)
Definition holds (keys : list RootKey.t) : KeyringGet :=
  fun getReq =>
    Reply (List.find
             (fun key =>
                match RootKey.Meta key with
                | Some meta =>
                    String.eqb (RootKeyMeta.KeyID meta)
                      (KeyringGetRootKeyRequest.KeyID getReq)
                | None => false
                end) keys).

Definition down : KeyringGet := fun _ => Failed (ErrLib "rpc error: No cluster leader").

Definition confused : KeyringGet := fun _ => Reply (Some key2).

(** A region whose new leader holds no key yet; of its four other servers
    one is down, one holds nothing, one holds K1 and K2 and one K2. *)
Definition region : Server :=
  mkServer "global" (holds [])
    [down; holds []; holds [key1; key2]; holds [key2]]
    (Ok [meta1; meta2; meta3]).

Definition confusedRegion : Server :=
  mkServer "global" confused [] (Ok [meta1]).

(** A keyring that holds K1 alone. *)
Definition ring1 : Encrypter :=
  match addCipher (L := libs) empty (Some key1) with Ok e => e | _ => empty end.

End SampleCluster.

(** * Facts *)

(** ** Strings and paths *)

Section StringFacts.

Lemma strlen_app (a b : string) :
  String.length (a +:+ b) = String.length a + String.length b.
Proof. induction a as [|c a IH]; simpl; [done | by rewrite IH]. Qed.

Lemma strapp_cons (c : ascii) (a b : string) : String c a +:+ b = String c (a +:+ b).
Proof. reflexivity. Qed.

Lemma strapp_nil_l (a : string) : "" +:+ a = a.
Proof. reflexivity. Qed.

Lemma strapp_nil_r (a : string) : a +:+ "" = a.
Proof. induction a as [|c a IH]; [done | by rewrite strapp_cons, IH]. Qed.

Lemma strapp_assoc (a b c : string) : (a +:+ b) +:+ c = a +:+ (b +:+ c).
Proof. induction a as [|x a IH]; [done | by rewrite !strapp_cons, IH]. Qed.

Lemma eqb_longer (a b : string) :
  String.length a <> String.length b -> String.eqb a b = false.
Proof. intros H. apply String.eqb_neq. intros ->. by apply H. Qed.

Lemma noSlash_app (a b : string) : noSlash (a +:+ b) = noSlash a && noSlash b.
Proof.
  induction a as [|c a IH]; simpl; [done |].
  rewrite IH. by destruct (Ascii.eqb c "/").
Qed.

Lemma eqb_noSlash (a b : string) :
  noSlash a = false -> noSlash b = true -> String.eqb a b = false.
Proof. intros Ha Hb. apply String.eqb_neq. intros ->. congruence. Qed.

(** *** stripSuffix, HasSuffix, TrimSuffix *)

Lemma stripSuffix_nil (suffix : string) :
  stripSuffix "" suffix = if String.eqb "" suffix then Some "" else None.
Proof. reflexivity. Qed.

Lemma stripSuffix_cons (c : ascii) (s suffix : string) :
  stripSuffix (String c s) suffix
  = if String.eqb (String c s) suffix then Some ""
    else String c <$> stripSuffix s suffix.
Proof. reflexivity. Qed.

Lemma stripSuffix_app (p suffix : string) :
  stripSuffix (p +:+ suffix) suffix = Some p.
Proof.
  induction p as [|c p IH].
  - rewrite strapp_nil_l. destruct suffix as [|c s].
    + reflexivity.
    + by rewrite stripSuffix_cons, String.eqb_refl.
  - rewrite strapp_cons, stripSuffix_cons, IH.
    rewrite eqb_longer; [done |].
    simpl. rewrite strlen_app. lia.
Qed.

Lemma stripSuffix_Some (s suffix p : string) :
  stripSuffix s suffix = Some p -> s = p +:+ suffix.
Proof.
  revert p. induction s as [|c s IH]; intros p.
  - rewrite stripSuffix_nil.
    destruct (String.eqb "" suffix) eqn:E; [|done].
    apply String.eqb_eq in E as <-. by intros [= <-].
  - rewrite stripSuffix_cons.
    destruct (String.eqb (String c s) suffix) eqn:E.
    + apply String.eqb_eq in E. by intros [= <-].
    + destruct (stripSuffix s suffix) as [q|] eqn:Hq; [|done].
      intros [= <-]. rewrite strapp_cons. f_equal. by apply IH.
Qed.

Lemma HasSuffix_app (p suffix : string) : HasSuffix (p +:+ suffix) suffix = true.
Proof. unfold HasSuffix. rewrite stripSuffix_app. by apply bool_decide_eq_true. Qed.

Lemma TrimSuffix_app (p suffix : string) : TrimSuffix (p +:+ suffix) suffix = p.
Proof. unfold TrimSuffix. by rewrite stripSuffix_app. Qed.

Lemma HasSuffix_true (s suffix : string) :
  HasSuffix s suffix = true -> s = TrimSuffix s suffix +:+ suffix.
Proof.
  unfold HasSuffix, TrimSuffix. intros H. apply bool_decide_eq_true in H.
  destruct H as [p Hp]. rewrite Hp. by apply stripSuffix_Some.
Qed.

Lemma HasSuffix_cons (c : ascii) (s suffix : string) :
  HasSuffix (String c s) suffix
  = String.eqb (String c s) suffix || HasSuffix s suffix.
Proof.
  unfold HasSuffix. rewrite stripSuffix_cons.
  destruct (String.eqb (String c s) suffix).
  - apply bool_decide_eq_true. by eexists.
  - apply bool_decide_ext. by rewrite fmap_is_Some.
Qed.

(** *** Join, Base, entryName *)

Lemma Join_nil (name : string) : Join "" name = String "/" name.
Proof. reflexivity. Qed.

Lemma Join_cons (c : ascii) (dir name : string) :
  Join (String c dir) name = String c (Join dir name).
Proof. reflexivity. Qed.

Lemma Join_noSlash (dir name : string) : noSlash (Join dir name) = false.
Proof.
  unfold Join. rewrite noSlash_app. simpl. by destruct (noSlash dir).
Qed.

Lemma Join_length (dir name : string) :
  String.length (Join dir name) = String.length dir + S (String.length name).
Proof. unfold Join. by rewrite !strlen_app. Qed.

Lemma Join_neq (dir name : string) : String.eqb (Join dir name) dir = false.
Proof. apply eqb_longer. rewrite Join_length. lia. Qed.

Lemma HasSuffix_Join (dir name suffix : string) :
  noSlash suffix = true ->
  HasSuffix (Join dir name) suffix = HasSuffix name suffix.
Proof.
  intros Hs. induction dir as [|c dir IH].
  - rewrite Join_nil, HasSuffix_cons.
    by rewrite eqb_noSlash.
  - rewrite Join_cons, HasSuffix_cons, IH.
    rewrite eqb_noSlash; [done | | done].
    simpl. rewrite Join_noSlash. by destruct (Ascii.eqb c "/").
Qed.

Lemma lastElement_noSlash (name cur prev : string) :
  noSlash name = true ->
  lastElement name cur prev
  = if String.eqb (cur +:+ name) "" then prev else cur +:+ name.
Proof.
  revert cur. induction name as [|c name IH]; intros cur.
  - by rewrite strapp_nil_r.
  - simpl. destruct (Ascii.eqb c "/"); simpl; [done |].
    intros H. rewrite IH by done. by rewrite strapp_assoc.
Qed.

Lemma lastElement_Join (dir name cur prev : string) :
  noSlash name = true -> name <> "" ->
  lastElement (Join dir name) cur prev = name.
Proof.
  intros Hn Hne. revert cur prev.
  induction dir as [|c dir IH]; intros cur prev.
  - rewrite Join_nil. simpl. rewrite lastElement_noSlash by done.
    rewrite strapp_nil_l. by apply String.eqb_neq in Hne as ->.
  - rewrite Join_cons. simpl. destruct (Ascii.eqb c "/"); apply IH.
Qed.

Lemma Base_Join (dir name : string) :
  noSlash name = true -> name <> "" -> Base (Join dir name) = name.
Proof.
  intros Hn Hne. unfold Base.
  rewrite lastElement_Join by done.
  rewrite (eqb_longer (Join dir name) ""); [| rewrite Join_length; simpl; lia].
  by apply String.eqb_neq in Hne as ->.
Qed.

Lemma stripPrefix_app (p r : string) : stripPrefix p (p +:+ r) = Some r.
Proof.
  induction p as [|c p IH]; [by destruct r |].
  rewrite strapp_cons. simpl. by rewrite Ascii.eqb_refl.
Qed.

Lemma entryName_Join (dir name : string) :
  entryName dir (Join dir name) = if noSlash name then Some name else None.
Proof.
  unfold entryName, Join.
  by rewrite <- strapp_assoc, stripPrefix_app.
Qed.

Lemma entryName_root (dir : string) : entryName dir dir = None.
Proof.
  unfold entryName.
  assert (stripPrefix (dir +:+ "/") dir = None) as ->; [|done].
  induction dir as [|c dir IH]; [done |].
  rewrite strapp_cons. simpl. by rewrite Ascii.eqb_refl.
Qed.

(** *** IsUUID *)

Lemma isHex_noSlash (c : ascii) : isHex c = true -> Ascii.eqb c "/" = false.
Proof.
  intros H. destruct (Ascii.eqb c "/") eqn:E; [|done].
  apply Ascii.eqb_eq in E as ->. done.
Qed.

Lemma hexRun_Some (n : nat) (s r : string) :
  hexRun n s = Some r ->
  String.length s = n + String.length r /\ noSlash s = noSlash r.
Proof.
  revert s. induction n as [|n IH]; intros s; simpl.
  - by intros [= ->].
  - destruct s as [|c s]; [done |].
    destruct (isHex c) eqn:Hc; [|done].
    intros H. apply IH in H as [Hl Hs]. simpl.
    rewrite (isHex_noSlash c Hc), Hl, Hs. done.
Qed.

Lemma uuidGroups_shape (groups : list nat) (s : string) :
  uuidGroups groups s = true ->
  String.length s + 1 = sum_list groups + length groups /\ noSlash s = true.
Proof.
  revert s. induction groups as [|n groups IH]; intros s; [done |].
  destruct groups as [|m groups].
  - simpl. destruct (hexRun n s) as [[|? ?]|] eqn:H; try done.
    apply hexRun_Some in H as [Hl Hs]. simpl in *. intros _. split; [lia | done].
  - change (uuidGroups (n :: m :: groups) s)
      with (match hexRun n s with
            | Some (String "-" s') => uuidGroups (m :: groups) s'
            | _ => false
            end).
    destruct (hexRun n s) as [[|c s']|] eqn:H; try done.
    apply hexRun_Some in H as [Hl Hs].
    destruct c as [[] [] [] [] [] [] [] []]; try done.
    intros H. apply IH in H as [Hl' Hs'].
    simpl in *. split; [lia | congruence].
Qed.

Lemma IsUUID_shape (s : string) :
  IsUUID s = true -> String.length s = 36 /\ noSlash s = true.
Proof.
  intros H. apply uuidGroups_shape in H as [Hl Hs]. simpl in Hl. split; [lia | done].
Qed.


End StringFacts.

(** ** The keyring invariant *)

Section KeyringFacts.
Context {L : Libs}.


(** What a successful [newKeyset] tells about its result. *)
Lemma newKeyset_Ok (r : RootKey.t) (meta : RootKeyMeta.t) (ks : keyset) :
  newKeyset r meta = Ok ks ->
  rootKey ks = r /\
  (exists block, cipher_NewGCM block = Ok (cipher ks)) /\
  eddsaPrivateKey ks = ed25519_NewKeyFromSeed (RootKey.Key r) /\
  match rsaPrivateKey ks with
  | Some priv =>
      (exists der, x509_ParsePKCS1PrivateKey der = Ok priv) /\
      rsaPKCS1PublicKey ks = x509_MarshalPKCS1PublicKey (rsa.Public priv)
  | None => True
  end.
Proof.
  unfold newKeyset, NewKeyFromSeed, obind, wrapping.
  destruct (String.eqb _ _); [|done].
  destruct (aes_NewCipher _) as [block| |]; [|done..].
  destruct (cipher_NewGCM block) as [c| |] eqn:Hc; [|done..].
  destruct (length _ =? SeedSize); [|done].
  destruct (0 <? length _).
  - destruct (x509_ParsePKCS1PrivateKey _) as [priv| |] eqn:Hp; [|done..].
    intros [= <-]. simpl. eauto 10.
  - intros [= <-]. simpl. eauto 10.
Qed.

Lemma keyset_ok_ID (id : string) (ks : keyset) :
  keyset_ok id ks -> keysetID ks = Ok id.
Proof. intros (meta & Hm & <- & _). unfold keysetID. by rewrite Hm. Qed.

Lemma keyset_ok_cipher (id : string) (ks : keyset) :
  keyset_ok id ks -> exists block, cipher_NewGCM block = Ok (cipher ks).
Proof. intros (meta & _ & _ & H). by apply newKeyset_Ok in H as (_ & ? & _). Qed.

Lemma keyring_ok_empty (e : Encrypter) : keyring e = ∅ -> keyring_ok e.
Proof. intros He id ks. by rewrite He, lookup_empty. Qed.

(** What a successful [addCipher] did. *)
Lemma addCipher_Ok (e e' : Encrypter) (rootKey : option RootKey.t) :
  addCipher e rootKey = Ok e' ->
  exists r meta ks,
    rootKey = Some r /\ RootKey.Meta r = Some meta /\
    newKeyset r meta = Ok ks /\
    e' = withKeyring e (<[RootKeyMeta.KeyID meta := ks]> (keyring e)).
Proof.
  unfold addCipher. destruct rootKey as [r|]; [|done].
  destruct (RootKey.Meta r) as [meta|] eqn:Hm; [|done].
  unfold obind. destruct (newKeyset r meta) as [ks| |] eqn:Hks; [|done..].
  intros [= <-]. eauto 10.
Qed.

Lemma addCipher_keyring_ok (e e' : Encrypter) (rootKey : option RootKey.t) :
  keyring_ok e -> addCipher e rootKey = Ok e' -> keyring_ok e'.
Proof.
  intros Hok (r & meta & ks & -> & Hm & Hks & ->)%addCipher_Ok id ks'. simpl.
  destruct (decide (RootKeyMeta.KeyID meta = id)) as [<-|Hne].
  - rewrite lookup_insert_eq. intros [= <-].
    pose proof (newKeyset_Ok _ _ _ Hks) as (Hr & _).
    exists meta. by rewrite Hr.
  - rewrite lookup_insert_ne by done. apply Hok.
Qed.

Lemma RemoveKey_keyring_ok (e : Encrypter) (keyID : string) :
  keyring_ok e -> keyring_ok (RemoveKey e keyID).2.
Proof.
  intros Hok id ks. simpl. intros H.
  apply lookup_delete_Some in H as [_ H]. by apply Hok.
Qed.

(** *** Slices of a framed ciphertext *)

Lemma sliceTo_prefix (s : slice) (a b : bytes) :
  elems s = a ++ b -> sliceTo s (length a) = Ok a.
Proof.
  intros H. unfold sliceTo, cap. rewrite H, length_app.
  rewrite (proj2 (Nat.leb_le _ _)) by lia.
  by rewrite <- !(assoc_L (++)), take_app_length.
Qed.

Lemma sliceFrom_suffix (s : slice) (a b : bytes) :
  elems s = a ++ b -> sliceFrom s (length a) = Ok b.
Proof.
  intros H. unfold sliceFrom, len. rewrite H, length_app.
  rewrite (proj2 (Nat.leb_le _ _)) by lia.
  by rewrite drop_app_length.
Qed.

(** What Decrypt does with a buffer that is a nonce followed by sealed
    text: it opens the sealed text under the key ID as additional data. *)
Lemma Decrypt_framed `{!GCMFraming L} (e : Encrypter) (s : slice) (keyID : string)
    (ks : keyset) (nonce sealed : bytes) :
  keyring e !! keyID = Some ks -> keyset_ok keyID ks ->
  length nonce = 12 -> elems s = nonce ++ sealed ->
  Decrypt e s keyID = Open (cipher ks) [] nonce sealed (bytesOf keyID).
Proof.
  intros Hks Hok Hn Hs. unfold Decrypt, keysetByIDLocked. rewrite Hks. simpl.
  destruct (keyset_ok_cipher _ _ Hok) as [block Hc].
  rewrite (gcm_NonceSize L block _ Hc), <- Hn.
  by rewrite (sliceTo_prefix s nonce sealed), (sliceFrom_suffix s nonce sealed).
Qed.

(** What Encrypt returns when the active keyset is held and the random
    source delivers a nonce. *)
Lemma Encrypt_Ok `{!GCMFraming L} (e : Encrypter) (w : World) (meta : RootKeyMeta.t)
    (ks : keyset) (cleartext : bytes) :
  let k := RootKeyMeta.KeyID meta in
  let nonce := take 12 (entropy w) in
  activeRootKeyMeta w = Ok (Some meta) ->
  keyring e !! k = Some ks -> keyset_ok k ks ->
  12 <= length (entropy w) ->
  Encrypt e w cleartext
  = (Ok (nonce ++ Seal (cipher ks) [] nonce cleartext (bytesOf k), k),
     withEntropy w (drop 12 (entropy w))).
Proof.
  intros k nonce Hactive Hks Hok Hent.
  unfold Encrypt, activeKeySet, keysetByIDLocked. rewrite Hactive. simpl.
  fold k. rewrite Hks.
  destruct (keyset_ok_cipher _ _ Hok) as [block Hc].
  rewrite (gcm_NonceSize L block _ Hc).
  unfold crypto_Bytes. rewrite (proj2 (Nat.leb_le _ _)) by done.
  rewrite (keyset_ok_ID _ _ Hok). simpl.
  by rewrite (gcm_Seal_dst L block _ _ _ _ _ Hc).
Qed.

End KeyringFacts.

(** ** Encrypt and Decrypt *)

Section EncryptDecrypt.
Context {L : Libs}.

(** What a successful Encrypt used: the active keyset, a nonce from the
    random source, and the keyset's own ID as additional data. *)
Lemma Encrypt_inv (e : Encrypter) (w w' : World) (cleartext ciphertext : bytes)
    (k : string) :
  Encrypt e w cleartext = (Ok (ciphertext, k), w') ->
  exists meta ks nonce,
    activeRootKeyMeta w = Ok (Some meta) /\
    keyring e !! RootKeyMeta.KeyID meta = Some ks /\
    length nonce = NonceSize (cipher ks) /\
    keysetID ks = Ok k /\
    ciphertext = Seal (cipher ks) nonce nonce cleartext (bytesOf k).
Proof.
  unfold Encrypt, activeKeySet, keysetByIDLocked, obind.
  destruct (activeRootKeyMeta w) as [[meta|]| |] eqn:Hactive; try done.
  destruct (keyring e !! RootKeyMeta.KeyID meta) as [ks|] eqn:Hks; [|done].
  unfold crypto_Bytes.
  destruct (NonceSize (cipher ks) <=? length (entropy w)) eqn:Hn; [|done].
  destruct (keysetID ks) as [k0| |] eqn:Hid; [|done..].
  intros [= <- <- <-]. exists meta, ks, (take (NonceSize (cipher ks)) (entropy w)).
  repeat split; try done.
  apply Nat.leb_le in Hn. rewrite length_take. lia.
Qed.

(** C1: with an active AES-256-GCM keyset of ID [k] in the keyring (and a
    random source that delivers the nonce), Encrypt returns [k] and a
    ciphertext that is the 12-byte nonce followed by the sealed text, of
    12 + len(cleartext) + 16 bytes, and Decrypt of that ciphertext with [k]
    returns the cleartext. *)
Theorem Encrypt_Decrypt_roundtrip `{!GCMCorrect L} (e : Encrypter) (w : World)
    (meta : RootKeyMeta.t) (ks : keyset) (cleartext : bytes) :
  let k := RootKeyMeta.KeyID meta in
  let nonce := take 12 (entropy w) in
  keyring_ok e ->
  activeRootKeyMeta w = Ok (Some meta) ->
  keyring e !! k = Some ks ->
  12 <= length (entropy w) ->
  exists ciphertext w',
    Encrypt e w cleartext = (Ok (ciphertext, k), w') /\
    ciphertext = nonce ++ Seal (cipher ks) [] nonce cleartext (bytesOf k) /\
    length ciphertext = 12 + length cleartext + 16 /\
    forall s, elems s = ciphertext -> Decrypt e s k = Ok cleartext.
Proof.
  intros k nonce Hok Hactive Hks Hent.
  pose proof (Hok _ _ Hks) as Hk.
  destruct (keyset_ok_cipher _ _ Hk) as [block Hc].
  assert (length nonce = 12) as Hn by (unfold nonce; rewrite length_take; lia).
  exists (nonce ++ Seal (cipher ks) [] nonce cleartext (bytesOf k)),
    (withEntropy w (drop 12 (entropy w))).
  split; [by apply Encrypt_Ok |]. split; [done |]. split.
  - rewrite length_app, Hn, (gcm_Seal_length L block) by done. lia.
  - intros s Hs.
    rewrite (Decrypt_framed e s k ks nonce _ Hks Hk Hn Hs).
    by apply (gcm_Open_Seal L block).
Qed.


(** C4, as the code has it: Decrypt does not check the length of its
    input.  On a buffer shorter than the nonce of the keyset's cipher one
    of the two slice expressions is out of range and Decrypt panics; no
    error is returned. *)
Theorem Decrypt_short_buffer_panics (e : Encrypter) (s : slice) (keyID : string)
    (ks : keyset) :
  keyring e !! keyID = Some ks ->
  len s < NonceSize (cipher ks) ->
  Decrypt e s keyID = Panic "slice bounds out of range".
Proof.
  intros Hks Hlen. unfold Decrypt, keysetByIDLocked. rewrite Hks. simpl.
  unfold sliceTo, sliceFrom, obind.
  destruct (NonceSize (cipher ks) <=? cap s); [|done].
  by rewrite (proj2 (Nat.leb_gt _ _)) by lia.
Qed.

End EncryptDecrypt.

(** ** The reference instances meet the laws *)

Module ReferenceFacts.
Import Reference.

Lemma bytes_eqb_eq (a b : bytes) : bytes_eqb a b = true <-> a = b.
Proof.
  revert b. induction a as [|x a IH]; intros [|y b]; simpl; try done.
  rewrite andb_true_iff, IH. split.
  - intros [Hxy ->]. by apply Byte.byte_dec_bl in Hxy as ->.
  - intros [= -> ->]. split; [by apply Byte.byte_dec_lb | done].
Qed.

Lemma tag16_length (key nonce aad : bytes) : length (tag16 key nonce aad) = 16.
Proof.
  unfold tag16. rewrite length_take, !length_app, repeat_length. lia.
Qed.

Lemma unframe_frame (fuel : nat) (l r : bytes) :
  length l < fuel -> unframe fuel (frame l ++ r) = Some (l, r).
Proof.
  revert fuel. induction l as [|b l IH]; intros [|fuel] Hf; simpl in *; try lia.
  - done.
  - unfold frame in IH. simpl in IH. rewrite IH by lia. done.
Qed.

Lemma frame_length (l : bytes) : length (frame l) = 2 * length l + 1.
Proof.
  unfold frame. rewrite length_app. simpl.
  induction l as [|b l IH]; simpl in *; lia.
Qed.

Lemma framing (g : bytes -> AEAD) :
  (forall key, NonceSize (g key) = 12) ->
  (forall key dst nonce plaintext aad,
     Seal (g key) dst nonce plaintext aad = dst ++ Seal (g key) [] nonce plaintext aad) ->
  GCMFraming (libsWith g).
Proof.
  intros Hn Hs. split; simpl.
  - by intros block c [= <-].
  - by intros block c dst nonce plaintext aad [= <-].
Qed.

Lemma gcm_framing : GCMFraming libs.
Proof. by apply framing. Qed.


Lemma gcmOpen_Seal (key nonce plaintext aad : bytes) :
  gcmOpen key [] nonce (gcmSeal key [] nonce plaintext aad) aad = Ok plaintext.
Proof.
  unfold gcmSeal, gcmOpen. rewrite !app_nil_l, length_app, tag16_length.
  replace (length plaintext + 16 - 16) with (length plaintext) by lia.
  rewrite (proj2 (Nat.leb_le 16 _)) by lia.
  rewrite drop_app_length, take_app_length.
  by rewrite (proj2 (bytes_eqb_eq _ _) eq_refl).
Qed.

Lemma gcm_correct : GCMCorrect libs.
Proof.
  split; [apply gcm_framing | |].
  - intros block c nonce plaintext aad [= <-] _.
    change (length (gcmSeal block [] nonce plaintext aad) = length plaintext + 16).
    unfold gcmSeal. by rewrite app_nil_l, length_app, tag16_length.
  - intros block c nonce plaintext aad [= <-] _. apply gcmOpen_Seal.
Qed.


Lemma pos_bits (p : positive) : bits_to_pos (pos_to_bits p) = p.
Proof. induction p as [p IH|p IH|]; simpl; by rewrite ?IH. Qed.

Lemma claims_code (c : IdentityClaims.t) : claimsOfCode (codeOfClaims c) = c.
Proof. by destruct c. Qed.

Lemma jose_correct (g : bytes -> AEAD) : JoseCorrect (libsWith g).
Proof.
  split; simpl.
  - intros alg key opts sig claims raw Hsig Hraw Hkid.
    assert (sig = (alg, key, opts)) as ->.
    { unfold newSigner in Hsig. destruct alg, key; by inversion Hsig. }
    unfold compactSerialize in Hraw. injection Hraw as <-.
    eexists. unfold parseSigned. rewrite pos_bits, decode_encode.
    split; [done |]. split.
    + unfold tokenKeyID. by apply String.eqb_neq in Hkid as ->.
    + unfold tokenClaims, keyCode_eqb.
      assert (publicKeyOf (L := libsWith g) key = publicOf edPublic key) as ->
        by (by destruct key).
      rewrite bool_decide_eq_true_2 by done. by rewrite claims_code.
  - intros der priv. unfold parsePrivate.
    destruct der as [|b body]; [done |].
    destruct b; try done. intros [= <-]. unfold marshalPublic, parsePublic. simpl.
    by rewrite repeat_length, Nat2Z.id.
Qed.

Lemma kms_correct (g : bytes -> AEAD) : KMSCorrect (libsWith g).
Proof.
  split. intros keyID kek wrapper plaintext blob. simpl.
  destruct (validAESKey kek); [|done].
  intros [= <-] [= <-]. cbn [kms.Decrypt wrapperWith].
  rewrite unframe_frame by (rewrite length_app, frame_length; lia).
  rewrite (proj2 (bytes_eqb_eq kek kek) eq_refl).
  split; [done |]. rewrite length_app, frame_length. lia.
Qed.

(** The sample keyrings are built by addCipher alone. *)
Lemma ringOf_ok (L : Libs) : keyring_ok (L := L) (Sample.ringOf L).
Proof.
  unfold Sample.ringOf.
  destruct (addCipher Sample.empty (Some Sample.key1)) as [e| |] eqn:H1;
    try by apply keyring_ok_empty.
  assert (keyring_ok e) as He
    by (eapply addCipher_keyring_ok; [|done]; by apply keyring_ok_empty).
  destruct (addCipher e (Some Sample.key2)) as [e'| |] eqn:H2; try done.
  by eapply addCipher_keyring_ok.
Qed.

End ReferenceFacts.

(** ** Encrypt and Decrypt on the sample keyring *)

Section EncryptDecryptRuns.
Import Reference Sample.

(** Scenario 1 of the specification: "hello" under K1 is 33 bytes long and
    decrypts to "hello". *)
Lemma Encrypt_Decrypt_roundtrip_witness :
  exists ciphertext w',
    Encrypt ring world1 hello = (Ok (ciphertext, K1), w') /\
    length ciphertext = 33 /\
    Decrypt ring (sliceOf ciphertext) K1 = Ok hello.
Proof.
  destruct (Encrypt_Decrypt_roundtrip (L := libs) (GCMCorrect0 := ReferenceFacts.gcm_correct)
              ring world1 meta1
              (default (mkKeyset key1 (gcm []) [] None []) (keyring ring !! K1)) hello)
    as (ciphertext & w' & Henc & _ & Hlen & Hdec).
  - apply ReferenceFacts.ringOf_ok.
  - reflexivity.
  - vm_compute. reflexivity.
  - simpl. lia.
  - exists ciphertext, w'. split; [exact Henc |]. split; [exact Hlen |].
    by apply Hdec.
Defined.


(** An empty buffer, and eleven bytes in a buffer of capacity sixteen. *)
Lemma Decrypt_short_buffer_panics_witness :
  Decrypt ring (sliceOf []) K1 = Panic "slice bounds out of range" /\
  Decrypt ring (mkSlice (repeat Byte.x00 11) (repeat Byte.x00 5)) K1
  = Panic "slice bounds out of range".
Proof.
  split.
  - eapply Decrypt_short_buffer_panics.
    + vm_compute. reflexivity.
    + vm_compute. lia.
  - eapply Decrypt_short_buffer_panics.
    + vm_compute. reflexivity.
    + vm_compute. lia.
Defined.

End EncryptDecryptRuns.

(** ** SignClaims and VerifyClaim *)

Section SignVerify.
Context {L : Libs}.

Lemma activeKeySet_Ok (e : Encrypter) (w : World) (ks : keyset) :
  activeKeySet e w = Ok ks ->
  exists meta,
    activeRootKeyMeta w = Ok (Some meta) /\
    keyring e !! RootKeyMeta.KeyID meta = Some ks.
Proof.
  unfold activeKeySet, keysetByIDLocked, obind.
  destruct (activeRootKeyMeta w) as [[meta|]| |]; try done.
  destruct (keyring e !! RootKeyMeta.KeyID meta) as [ks'|] eqn:Hks; [|done].
  intros [= <-]. eauto.
Qed.

(** The public key GetPublicKey publishes for a keyset is the verifying
    key of the key SignClaims signs with. *)
Lemma GetPublicKey_matches `{!JoseCorrect L} (e : Encrypter) (keyID : string)
    (ks : keyset) :
  keyring e !! keyID = Some ks -> keyset_ok keyID ks ->
  exists pubKey,
    GetPublicKey e keyID = Ok pubKey /\
    KeyringPublicKey.KeyID pubKey = keyID /\
    KeyringPublicKey_GetPublicKey pubKey
    = Ok (publicKeyOf
            match rsaPrivateKey ks with
            | Some rsaKey => SignRSA rsaKey
            | None => SignEd25519 (eddsaPrivateKey ks)
            end).
Proof.
  intros Hks (meta & Hm & Hid & Hnew).
  apply newKeyset_Ok in Hnew as (_ & _ & _ & Hrsa).
  unfold GetPublicKey, keysetByIDLocked. rewrite Hks. simpl. rewrite Hm.
  destruct (rsaPrivateKey ks) as [priv|].
  - destruct Hrsa as [[der Hder] Hpub]. eexists. split; [done |]. split; [done |].
    unfold KeyringPublicKey_GetPublicKey. simpl.
    rewrite Hpub, (x509_public_roundtrip L der priv Hder). done.
  - eexists. split; [done |]. split; [done |]. done.
Qed.


(** The retry loop has one way out, and it returns no token. *)
Lemma retryActiveKeySet_Ok (view : nat -> Encrypter * World) (n polls : nat)
    (last : outcome keyset) (r : string * string) :
  retryActiveKeySet view n polls last = Ok r -> r = ("", "").
Proof.
  revert n last. induction polls as [|polls IH]; intros n last; simpl.
  - destruct last; by intros [= <-].
  - destruct (activeKeySet _ _); [apply IH | apply IH | done].
Qed.

(** Its result is decided by the last retry alone. *)
Lemma retryActiveKeySet_last (view : nat -> Encrypter * World) (n polls : nat)
    (last : outcome keyset) :
  (forall i, is_panic (activeKeySet (view i).1 (view i).2) = false) ->
  retryActiveKeySet view n (S polls) last
  = afterRetries (activeKeySet (view (n + polls)).1 (view (n + polls)).2).
Proof.
  intros Hnp. revert n last. induction polls as [|polls IH]; intros n last.
  - simpl. rewrite Nat.add_0_r. specialize (Hnp n).
    by destruct (activeKeySet (view n).1 (view n).2).
  - change (retryActiveKeySet view n (S (S polls)) last)
      with (match activeKeySet (view n).1 (view n).2 with
            | Panic m => Panic m
            | r => retryActiveKeySet view (S n) (S polls) r
            end).
    rewrite <- Nat.add_succ_comm. specialize (Hnp n).
    destruct (activeKeySet (view n).1 (view n).2); try done; apply IH.
Qed.

(** C5, as the code has it: once the first attempt to get the active
    keyset has failed, SignClaims never returns a token.  The [break] on
    success leaves the select only, the loop runs until the context is done,
    and then returns two empty strings with the error of the last retry:
    no error at all when the keyset has arrived by then, and the error of
    activeKeySet when it has not. *)
Theorem SignClaims_retry_never_signs (e : Encrypter) (w : World)
    (view : nat -> Encrypter * World) (polls : nat) (claims : IdentityClaims.t)
    (err : error) :
  activeKeySet e w = Err err ->
  (forall r, SignClaims e w view polls claims = Ok r -> r = ("", "")) /\
  (0 < polls ->
   (forall i, is_panic (activeKeySet (view i).1 (view i).2) = false) ->
   (forall ks,
      activeKeySet (view (polls - 1)).1 (view (polls - 1)).2 = Ok ks ->
      SignClaims e w view polls claims = Ok ("", "")) /\
   (forall err',
      activeKeySet (view (polls - 1)).1 (view (polls - 1)).2 = Err err' ->
      SignClaims e w view polls claims = Err err')).
Proof.
  intros Hfirst. unfold SignClaims. rewrite Hfirst. split.
  - intros r. apply retryActiveKeySet_Ok.
  - intros Hpolls Hnp. destruct polls as [|polls]; [lia |].
    rewrite (retryActiveKeySet_last view 0 polls _ Hnp).
    replace (S polls - 1) with polls by lia. simpl.
    split; [intros ks H | intros err' H]; by rewrite H.
Qed.

End SignVerify.

(** ** SignClaims and VerifyClaim on the sample keyring *)

Section SignVerifyRuns.
Import Reference Sample.


(** Scenario 3 of the specification: the node starts without the key, the
    key arrives before the third retry, and SignClaims still returns no
    token: it returns two empty strings and no error. *)
Lemma SignClaims_retry_never_signs_witness :
  activeKeySet empty world1 = Err (ErrNoSuchKey K1) /\
  SignClaims (L := libs) empty world1 late 100 claims = Ok ("", "").
Proof.
  assert (activeKeySet empty world1 = Err (ErrNoSuchKey K1)) as Hfirst by reflexivity.
  split; [exact Hfirst |].
  destruct (SignClaims_retry_never_signs (L := libs) empty world1 late 100 claims _ Hfirst)
    as [_ Hlast].
  destruct Hlast as [Hkey _].
  - lia.
  - intros i. unfold late. by destruct (i <? 2).
  - eapply Hkey. vm_compute. reflexivity.
Defined.

End SignVerifyRuns.

(** ** NewEncrypter and AddKey *)

Section Construction.
Context {L : Libs}.

(** C10, as the code has it: NewEncrypter leaves [providerConfigs] nil, so
    with any KEK provider configuration in the server's list the first
    store into the map panics, before the keystore is touched. *)
Theorem NewEncrypter_provider_configs_panic (config : Config) (w : World)
    (keystorePath : string) :
  KEKProviderConfigs config <> [] ->
  exists msg, NewEncrypter config w keystorePath = (Panic msg, w).
Proof.
  unfold NewEncrypter. destruct (KEKProviderConfigs config) as [|[p|] rest]; [done | |].
  - intros _. by eexists.
  - intros _. by eexists.
Qed.


(** C9: when addCipher has installed the key and saveKeyToStore then fails,
    AddKey returns the error of the save and leaves the keyring as
    addCipher made it: GetKey by the key's ID returns its material, and
    Decrypt by that ID opens what was sealed under the key. *)
Theorem AddKey_save_failure_keeps_key `{!GCMCorrect L} (e e1 : Encrypter) (w w1 : World)
    (r : RootKey.t) (err : error) :
  addCipher e (Some r) = Ok e1 ->
  saveKeyToStore e1 w r = (Err err, w1) ->
  AddKey e w (Some r) = (Err err, e1, w1) /\
  exists meta ks,
    RootKey.Meta r = Some meta /\
    keyring e1 !! RootKeyMeta.KeyID meta = Some ks /\
    rootKey ks = r /\
    GetKey e1 (RootKeyMeta.KeyID meta) = Ok (RootKey.Key r, RootKey.RSAKey r) /\
    forall nonce plaintext s,
      length nonce = 12 ->
      elems s = nonce ++ Seal (cipher ks) [] nonce plaintext
                           (bytesOf (RootKeyMeta.KeyID meta)) ->
      Decrypt e1 s (RootKeyMeta.KeyID meta) = Ok plaintext.
Proof.
  intros Hadd Hsave. split.
  - unfold AddKey. by rewrite Hadd, Hsave.
  - apply addCipher_Ok in Hadd as (r' & meta & ks & [= <-] & Hm & Hks & ->).
    pose proof (newKeyset_Ok _ _ _ Hks) as (Hr & [block Hc] & _).
    assert (keyset_ok (RootKeyMeta.KeyID meta) ks) as Hk
      by (exists meta; by rewrite Hr).
    exists meta, ks. simpl. rewrite lookup_insert_eq.
    split; [done |]. split; [done |]. split; [done |]. split.
    + unfold GetKey, keysetByIDLocked. simpl. rewrite lookup_insert_eq. simpl.
      by rewrite Hr.
    + intros nonce plaintext s Hn Hs.
      rewrite (Decrypt_framed _ s _ ks nonce _ (lookup_insert_eq _ _ _) Hk Hn Hs).
      by apply (gcm_Open_Seal L block).
Qed.

(** The key stays until RemoveKey: later calls of addCipher for other IDs
    leave it in place. *)
Lemma addCipher_other_key (e e' : Encrypter) (r : RootKey.t) (meta : RootKeyMeta.t)
    (keyID : string) :
  addCipher e (Some r) = Ok e' -> RootKey.Meta r = Some meta ->
  RootKeyMeta.KeyID meta <> keyID ->
  keyring e' !! keyID = keyring e !! keyID.
Proof.
  intros (r' & meta' & ks & [= <-] & Hm & _ & ->)%addCipher_Ok Hmeta Hne.
  rewrite Hm in Hmeta. injection Hmeta as ->. simpl.
  by rewrite lookup_insert_ne.
Qed.

End Construction.

Section ConstructionRuns.
Import Reference Sample.

(** A server configured with one AWS KMS provider. *)
Lemma NewEncrypter_provider_configs_panic_witness :
  NewEncrypter (L := libs)
    (mkConfig "" [Some (KEKProviderConfig.mk "awskms" "" ∅)]) world1 keystore
  = (Panic "assignment to entry in nil map", world1).
Proof.
  destruct (NewEncrypter_provider_configs_panic (L := libs)
              (mkConfig "" [Some (KEKProviderConfig.mk "awskms" "" ∅)]) world1 keystore)
    as [msg Hmsg]; [done |].
  rewrite Hmsg. vm_compute in Hmsg. by injection Hmsg as <-.
Defined.

(** The file of K1 cannot be written because a directory has its name:
    AddKey fails, and K1 is in the keyring all the same. *)
Lemma AddKey_save_failure_keeps_key_witness :
  exists e1 w1,
    AddKey (L := libs) empty (world None (Tree [(K1 +:+ ".nks.json", Dir)])) (Some key1)
    = (Err (ErrLib "open: is a directory"), e1, w1) /\
    GetKey e1 K1 = Ok (dek Byte.x11, []).
Proof.
  destruct (addCipher (L := libs) empty (Some key1)) as [e1| |] eqn:Hadd;
    [| by vm_compute in Hadd..].
  destruct (saveKeyToStore (L := libs) e1 (world None (Tree [(K1 +:+ ".nks.json", Dir)])) key1)
    as [r w1] eqn:Hsave.
  assert (r = Err (ErrLib "open: is a directory")) as ->.
  { unfold addCipher in Hadd. vm_compute in Hadd. injection Hadd as <-.
    vm_compute in Hsave. by injection Hsave as <- _. }
  destruct (AddKey_save_failure_keeps_key (L := libs)
              (GCMCorrect0 := ReferenceFacts.gcm_correct) _ _ _ _ _ _ Hadd Hsave)
    as (Hkey & meta & ks & [= <-] & _ & _ & Hget & _).
  by exists e1, w1.
Defined.

End ConstructionRuns.

(** ** The keystore walk *)

Section WalkFacts.
Context {L : Libs}.

Local Arguments addCipher : simpl never.
Local Arguments loadKeyFromStore : simpl never.

Lemma extension_noSlash : noSlash nomadKeystoreExtension = true.
Proof. reflexivity. Qed.

Lemma addCipher_keystorePath (e e' : Encrypter) (rootKey : option RootKey.t) :
  addCipher e rootKey = Ok e' -> keystorePath e' = keystorePath e.
Proof. by intros (r & meta & ks & _ & _ & _ & ->)%addCipher_Ok. Qed.

(** The visit of one path leaves the keystore path alone, and answers
    [SkipDir] for subdirectories only. *)
Lemma walkFn_spec (e : Encrypter) (w : World) (path : string) (info : node) :
  keystorePath (walkFn e w path info).2 = keystorePath e /\
  ((walkFn e w path info).1 = Err SkipDir ->
   info = Dir /\ String.eqb path (keystorePath e) = false /\
   (walkFn e w path info).2 = e).
Proof.
  unfold walkFn.
  destruct info as [|text|]; [| |done];
    (destruct (String.eqb path (keystorePath e)) eqn:Hroot; cbn [negb andb];
     [| try done; rewrite ?andb_false_r]);
    (destruct (HasSuffix path _); cbn [negb]; [|done]);
    (destruct (IsUUID _); cbn [negb]; [|done]);
    (destruct (loadKeyFromStore e w path) as [key| |]; [|done..]);
    (destruct (RootKey.Meta key) as [meta|]; [|done]);
    (destruct (String.eqb (RootKeyMeta.KeyID meta) _); cbn [negb]; [|done]);
    (destruct (addCipher e (Some key)) as [e'| |] eqn:Hadd; [|done..]);
    (split; [by apply addCipher_keystorePath in Hadd | done]).
Qed.

Lemma walkEntries_keystorePath (e : Encrypter) (w : World) (entries : list (string * node)) :
  keystorePath (walkEntries e w entries).2 = keystorePath e.
Proof.
  revert e. induction entries as [|[name info] rest IH]; intros e; [done |].
  simpl. pose proof (walkFn_spec e w (Join (keystorePath e) name) info) as [Hp Hs].
  destruct (walkFn e w (Join (keystorePath e) name) info) as [[[]|err|m] e'];
    simpl in *; try done.
  - by rewrite IH.
  - destruct err; try done. destruct info; try done; by rewrite IH.
Qed.

(** The walk keeps the keyring invariant: it changes the keyring through
    addCipher only. *)
Lemma walkFn_keyring_ok (e : Encrypter) (w : World) (path : string) (info : node) :
  keyring_ok e -> keyring_ok (walkFn e w path info).2.
Proof.
  intros Hok. unfold walkFn.
  destruct info as [|text|]; [| |done];
    (destruct (String.eqb path (keystorePath e)); cbn [negb andb];
     [| try done; rewrite ?andb_false_r]);
    (destruct (HasSuffix path _); cbn [negb]; [|done]);
    (destruct (IsUUID _); cbn [negb]; [|done]);
    (destruct (loadKeyFromStore e w path) as [key| |]; [|done..]);
    (destruct (RootKey.Meta key) as [meta|]; [|done]);
    (destruct (String.eqb (RootKeyMeta.KeyID meta) _); cbn [negb]; [|done]);
    (destruct (addCipher e (Some key)) as [e'| |] eqn:Hadd; [|done..]);
    by apply (addCipher_keyring_ok e e' (Some key)).
Qed.

Lemma walkEntries_keyring_ok (e : Encrypter) (w : World) (entries : list (string * node)) :
  keyring_ok e -> keyring_ok (walkEntries e w entries).2.
Proof.
  revert e. induction entries as [|[name info] rest IH]; intros e Hok; [done |].
  simpl. pose proof (walkFn_keyring_ok e w (Join (keystorePath e) name) info Hok) as H.
  destruct (walkFn e w (Join (keystorePath e) name) info) as [[[]|err|m] e'];
    simpl in *; try done.
  - by apply IH.
  - destruct err; try done. destruct info; try done; by apply IH.
Qed.

Lemma loadKeystore_keyring_ok (e : Encrypter) (w : World) :
  keyring_ok e -> keyring_ok (loadKeystore e w).1.2.
Proof.
  intros Hok. unfold loadKeystore.
  destruct (os_MkdirAll w) as [[[]|err|m] w']; try done. simpl.
  unfold Walk. destruct (disk w') as [| |entries]; try by apply walkFn_keyring_ok.
  pose proof (walkFn_keyring_ok e w' (keystorePath e) Dir Hok) as Hroot.
  destruct (walkFn e w' (keystorePath e) Dir) as [[[]|err|m] e']; simpl in *; try done.
  - pose proof (walkEntries_keyring_ok e' w' entries Hroot) as H.
    destruct (walkEntries e' w' entries) as [[[]|err|m] e'']; simpl in *; try done.
    by destruct err.
  - by destruct err.
Qed.

(** A walk never ends in [SkipDir]: Walk's last clause is not needed. *)
Lemma walkEntries_not_SkipDir (e : Encrypter) (w : World) (entries : list (string * node)) :
  (walkEntries e w entries).1 <> Err SkipDir.
Proof.
  revert e. induction entries as [|[name info] rest IH]; intros e; [done |].
  simpl. pose proof (walkFn_spec e w (Join (keystorePath e) name) info) as [_ Hs].
  destruct (walkFn e w (Join (keystorePath e) name) info) as [[[]|err|m] e'];
    simpl in *; try done.
  destruct err; try done.
  destruct (Hs eq_refl) as (-> & _ & _). apply IH.
Qed.

(** An entry that is passed over leaves the encrypter as it is. *)
Lemma walkFn_passedOver (e : Encrypter) (w : World) (name : string) (info : node) :
  noSlash name = true ->
  passedOver (name, info) = true ->
  walkFn e w (Join (keystorePath e) name) info
  = (match info with Dir => Err SkipDir | _ => Ok tt end, e).
Proof.
  intros Hname. unfold passedOver, walkFn. simpl.
  rewrite Join_neq, (HasSuffix_Join _ _ _ extension_noSlash). simpl.
  destruct info as [|text|]; try done.
  destruct (HasSuffix name nomadKeystoreExtension) eqn:Hsuf; simpl; [|done].
  assert (name <> "") as Hne.
  { apply HasSuffix_true in Hsuf. intros E. rewrite E in Hsuf.
    by destruct (TrimSuffix "" nomadKeystoreExtension). }
  rewrite (Base_Join _ _ Hname Hne). by intros ->.
Qed.

Lemma walkEntries_passedOver (e : Encrypter) (w : World) (entries : list (string * node)) :
  Forall (fun entry => noSlash entry.1 = true /\ passedOver entry = true) entries ->
  walkEntries e w entries = (Ok tt, e).
Proof.
  induction 1 as [|[name info] rest [Hname Hpass] _ IH]; [done |].
  simpl in *. rewrite (walkFn_passedOver e w name info Hname Hpass).
  by destruct info.
Qed.

(** The visit of the root when the keystore path does not itself look like
    a key file. *)
Lemma walkFn_root (e : Encrypter) (w : World) :
  HasSuffix (keystorePath e) nomadKeystoreExtension = false ->
  walkFn e w (keystorePath e) Dir = (Ok tt, e).
Proof. intros H. unfold walkFn. by rewrite String.eqb_refl, H. Qed.

(** A key file whose record names another key than its file name does. *)
Lemma walkFn_mismatch (e : Encrypter) (w : World) (id : string) (text : filetext)
    (kekWrapper : KeyEncryptionKeyWrapper.t) (meta : RootKeyMeta.t) :
  let path := Join (keystorePath e) (id +:+ nomadKeystoreExtension) in
  IsUUID id = true ->
  os_ReadFile w (keystorePath e) path = Ok (Json kekWrapper) ->
  KeyEncryptionKeyWrapper.Meta kekWrapper = Some meta ->
  RootKeyMeta.KeyID meta <> id ->
  is_ok (walkFn e w path (File text)).1 = false /\
  (walkFn e w path (File text)).1 <> Err SkipDir.
Proof.
  intros path Hid Hread Hmeta Hne. subst path.
  assert (Base (Join (keystorePath e) (id +:+ nomadKeystoreExtension))
          = id +:+ nomadKeystoreExtension) as Hbase.
  { apply Base_Join.
    - apply IsUUID_shape in Hid as [_ Hs]. by rewrite noSlash_app, Hs.
    - by destruct id. }
  unfold walkFn. rewrite Join_neq. cbn [negb andb].
  rewrite (HasSuffix_Join _ _ _ extension_noSlash), HasSuffix_app. cbn [negb].
  rewrite Hbase, TrimSuffix_app, Hid. cbn [negb].
  unfold loadKeyFromStore. rewrite Hread. simpl. rewrite Hmeta.
  destruct (RootKeyMeta_Validate (Some meta)) as [[]| |]; simpl; try done.
  destruct (newKMSWrapper _ _ _ _ _) as [wrapper| |]; simpl; try done.
  destruct (kms.Decrypt wrapper _) as [key| |]; simpl; try done.
  destruct (0 <? length _).
  - destruct (kms.Decrypt wrapper _) as [rsaKey| |]; simpl; try done.
    by apply String.eqb_neq in Hne as ->.
  - simpl. by apply String.eqb_neq in Hne as ->.
Qed.

Lemma walkEntries_mismatch (e : Encrypter) (w : World) (entries : list (string * node))
    (id : string) (kekWrapper kekWrapper' : KeyEncryptionKeyWrapper.t)
    (meta : RootKeyMeta.t) :
  let path := Join (keystorePath e) (id +:+ nomadKeystoreExtension) in
  IsUUID id = true ->
  os_ReadFile w (keystorePath e) path = Ok (Json kekWrapper) ->
  KeyEncryptionKeyWrapper.Meta kekWrapper = Some meta ->
  RootKeyMeta.KeyID meta <> id ->
  lookupEntry (id +:+ nomadKeystoreExtension) entries = Some (File (Json kekWrapper')) ->
  is_ok (walkEntries e w entries).1 = false.
Proof.
  intros path Hid Hread Hmeta Hne. unfold path in *. clear path.
  revert e Hread. induction entries as [|[name info] rest IH]; intros e Hread; [done |].
  simpl. destruct (String.eqb name _) eqn:Hname.
  - apply String.eqb_eq in Hname as ->. intros [= ->].
    destruct (walkFn_mismatch e w id (Json kekWrapper') kekWrapper meta Hid Hread Hmeta Hne)
      as [Hfail Hskip].
    destruct (walkFn e w _ _) as [[[]|err|m] e']; simpl in *; try done.
    by destruct err.
  - intros Hlook.
    pose proof (walkFn_spec e w (Join (keystorePath e) name) info) as [Hp Hs].
    destruct (walkFn e w (Join (keystorePath e) name) info) as [[[]|err|m] e'];
      simpl in *; try done.
    + apply IH; [by rewrite Hp | done].
    + destruct err; try done.
      destruct (Hs eq_refl) as (-> & _ & ->). by apply IH.
Qed.

End WalkFacts.

(** ** Loading the keystore *)

Section Load.
Context {L : Libs}.

Local Arguments addCipher : simpl never.
Local Arguments loadKeyFromStore : simpl never.
Local Arguments encryptDEK : simpl never.
Local Arguments os_WriteFile : simpl never.

Lemma os_ReadFile_entry (w : World) (dir name : string) (entries : list (string * node))
    (text : filetext) :
  disk w = Tree entries -> noSlash name = true ->
  lookupEntry name entries = Some (File text) ->
  os_ReadFile w dir (Join dir name) = Ok text.
Proof.
  intros Hdisk Hname Hlook. unfold os_ReadFile.
  by rewrite Hdisk, entryName_Join, Hname, Hlook.
Qed.

(** On a keystore directory whose own path does not look like a key file,
    loadKeystore is the walk over the entries. *)
Lemma loadKeystore_walk (e : Encrypter) (w : World) (entries : list (string * node)) :
  disk w = Tree entries ->
  HasSuffix (keystorePath e) nomadKeystoreExtension = false ->
  loadKeystore e w = (walkEntries e w entries, w).
Proof.
  intros Hdisk Hroot.
  unfold loadKeystore, os_MkdirAll. rewrite Hdisk. cbv beta iota.
  unfold Walk. rewrite Hdisk, (walkFn_root e w Hroot).
  pose proof (walkEntries_not_SkipDir e w entries) as Hskip.
  destruct (walkEntries e w entries) as [[[]|err|m] e']; try done.
  by destruct err.
Qed.

(** C8, as the code has it: loadKeystore passes over subdirectories, files
    whose name does not end in the extension and files whose name before the
    extension is not a UUID, without an error and without loading anything;
    and it fails on a key file whose record carries another key ID than its
    file name. *)
Theorem loadKeystore_validation (e : Encrypter) (w : World)
    (entries : list (string * node)) :
  disk w = Tree entries ->
  HasSuffix (keystorePath e) nomadKeystoreExtension = false ->
  (Forall (fun entry => noSlash entry.1 = true /\ passedOver entry = true) entries ->
   loadKeystore e w = (Ok tt, e, w)) /\
  (forall id kekWrapper meta,
     IsUUID id = true ->
     lookupEntry (id +:+ nomadKeystoreExtension) entries = Some (File (Json kekWrapper)) ->
     KeyEncryptionKeyWrapper.Meta kekWrapper = Some meta ->
     RootKeyMeta.KeyID meta <> id ->
     is_ok (loadKeystore e w).1.1 = false).
Proof.
  intros Hdisk Hroot. rewrite (loadKeystore_walk e w entries Hdisk Hroot). split.
  - intros Hall. by rewrite walkEntries_passedOver.
  - intros id kekWrapper meta Hid Hlook Hmeta Hne. simpl.
    apply (walkEntries_mismatch e w entries id kekWrapper kekWrapper meta); try done.
    apply (os_ReadFile_entry w _ _ entries); try done.
    apply IsUUID_shape in Hid as [_ Hs]. by rewrite noSlash_app, Hs.
Qed.

Lemma newKMSWrapper_default (e : Encrypter) (provider name keyID : string) (kek : bytes) :
  externalProvider provider = false ->
  newKMSWrapper e provider name keyID kek = aead_NewWrapper keyID kek.
Proof.
  unfold externalProvider, newKMSWrapper. intros H.
  repeat (apply orb_false_elim in H as [H ?]).
  by repeat match goal with E : String.eqb _ _ = false |- _ => rewrite E; clear E end.
Qed.

(** A file loads when its record's wrapper is made and unwraps the key
    material. *)
Lemma loadKeyFromStore_Ok (e : Encrypter) (w : World) (path : string)
    (kekWrapper : KeyEncryptionKeyWrapper.t) (meta : RootKeyMeta.t)
    (wrapper : kms.Wrapper) (key rsaKey : bytes) :
  os_ReadFile w (keystorePath e) path = Ok (Json kekWrapper) ->
  KeyEncryptionKeyWrapper.Meta kekWrapper = Some meta ->
  RootKeyMeta_Validate (Some meta) = Ok tt ->
  newKMSWrapper e (KeyEncryptionKeyWrapper.Provider kekWrapper)
    (KeyEncryptionKeyWrapper.ProviderName kekWrapper) (RootKeyMeta.KeyID meta)
    (KeyEncryptionKeyWrapper.KeyEncryptionKey kekWrapper) = Ok wrapper ->
  kms.Decrypt wrapper (KeyEncryptionKeyWrapper.EncryptedDataEncryptionKey kekWrapper)
  = Ok key ->
  (if 0 <? length (KeyEncryptionKeyWrapper.EncryptedRSAKey kekWrapper)
   then kms.Decrypt wrapper (KeyEncryptionKeyWrapper.EncryptedRSAKey kekWrapper)
   else Ok []) = Ok rsaKey ->
  loadKeyFromStore e w path = Ok (RootKey.mk (Some meta) key rsaKey).
Proof.
  intros Hread Hmeta Hvalid Hnew Hkey Hrsa.
  unfold loadKeyFromStore. rewrite Hread. simpl. rewrite Hmeta, Hvalid. simpl.
  rewrite Hnew. simpl. rewrite Hkey. simpl.
  destruct (0 <? length _); by rewrite Hrsa.
Qed.

(** C7, as the code has it: a record naming a provider other than the four
    external ones is opened with the built-in AEAD wrapper made from the
    record's own key encryption key, and loads whenever that wrapper is made
    and unwraps the key material. *)
Theorem loadKeyFromStore_unlisted_provider (e : Encrypter) (w : World) (path : string)
    (kekWrapper : KeyEncryptionKeyWrapper.t) (meta : RootKeyMeta.t)
    (wrapper : kms.Wrapper) (key rsaKey : bytes) :
  os_ReadFile w (keystorePath e) path = Ok (Json kekWrapper) ->
  KeyEncryptionKeyWrapper.Meta kekWrapper = Some meta ->
  RootKeyMeta_Validate (Some meta) = Ok tt ->
  externalProvider (KeyEncryptionKeyWrapper.Provider kekWrapper) = false ->
  aead_NewWrapper (RootKeyMeta.KeyID meta)
    (KeyEncryptionKeyWrapper.KeyEncryptionKey kekWrapper) = Ok wrapper ->
  kms.Decrypt wrapper (KeyEncryptionKeyWrapper.EncryptedDataEncryptionKey kekWrapper)
  = Ok key ->
  (if 0 <? length (KeyEncryptionKeyWrapper.EncryptedRSAKey kekWrapper)
   then kms.Decrypt wrapper (KeyEncryptionKeyWrapper.EncryptedRSAKey kekWrapper)
   else Ok []) = Ok rsaKey ->
  newKMSWrapper e (KeyEncryptionKeyWrapper.Provider kekWrapper)
    (KeyEncryptionKeyWrapper.ProviderName kekWrapper) (RootKeyMeta.KeyID meta)
    (KeyEncryptionKeyWrapper.KeyEncryptionKey kekWrapper) = Ok wrapper /\
  loadKeyFromStore e w path = Ok (RootKey.mk (Some meta) key rsaKey).
Proof.
  intros Hread Hmeta Hvalid Hext Hwrap Hkey Hrsa.
  assert (newKMSWrapper e (KeyEncryptionKeyWrapper.Provider kekWrapper)
            (KeyEncryptionKeyWrapper.ProviderName kekWrapper) (RootKeyMeta.KeyID meta)
            (KeyEncryptionKeyWrapper.KeyEncryptionKey kekWrapper) = Ok wrapper) as Hnew
    by (by rewrite newKMSWrapper_default).
  split; [done |]. by apply (loadKeyFromStore_Ok e w path kekWrapper meta wrapper).
Qed.

Lemma encryptDEK_disk (e : Encrypter) (w : World) (rootKey : RootKey.t)
    (provider : option KEKProvider.t) :
  disk (encryptDEK e w rootKey provider).2 = disk w.
Proof.
  unfold encryptDEK. destruct provider as [p|]; [|done].
  destruct (_ || _); [|done].
  unfold crypto_Bytes. by destruct (32 <=? length (entropy w)).
Qed.



(** The keyring invariant is what every reachable encrypter has: the
    encrypter NewEncrypter returns has it, and AddKey and RemoveKey keep it. *)
Theorem keyring_invariant (config : Config) (w w' : World) (path : string)
    (e : Encrypter) :
  NewEncrypter config w path = (Ok e, w') ->
  keyring_ok e /\
  (forall w1 rootKey, keyring_ok (AddKey e w1 rootKey).1.2) /\
  (forall keyID, keyring_ok (RemoveKey e keyID).2).
Proof.
  intros Hnew.
  assert (keyring_ok e) as Hok.
  { unfold NewEncrypter in Hnew.
    destruct (KEKProviderConfigs config) as [|[p|] rest]; try done. simpl in Hnew.
    set (e0 := mkEncrypter None path (OIDCIssuer config) ∅) in Hnew.
    pose proof (loadKeystore_keyring_ok e0 w (keyring_ok_empty e0 eq_refl)) as H.
    destruct (loadKeystore e0 w) as [[[[]|err|m] e1] w1]; try done.
    by injection Hnew as <- _. }
  split; [done |]. split.
  - intros w1 rootKey. unfold AddKey.
    destruct (addCipher e rootKey) as [e1| |] eqn:Hadd; try done.
    assert (keyring_ok e1) by by apply (addCipher_keyring_ok e e1 rootKey).
    destruct rootKey as [rk|]; [|done]. by destruct (saveKeyToStore e1 w1 rk).
  - intros keyID. by apply RemoveKey_keyring_ok.
Qed.

(** What a successful encryptDEK under the built-in provider made. *)
Lemma encryptDEK_aead_Ok (e : Encrypter) (w w1 : World) (r : RootKey.t)
    (meta : RootKeyMeta.t) (p : KEKProvider.t) (kekWrapper : KeyEncryptionKeyWrapper.t) :
  encryptDEK e w r (Some p) = (Ok kekWrapper, w1) ->
  KEKProvider.Provider p = "aead" ->
  RootKey.Meta r = Some meta ->
  exists wrapper,
    aead_NewWrapper (RootKeyMeta.KeyID meta)
      (KeyEncryptionKeyWrapper.KeyEncryptionKey kekWrapper) = Ok wrapper /\
    KeyEncryptionKeyWrapper.Meta kekWrapper = Some meta /\
    KeyEncryptionKeyWrapper.Provider kekWrapper = "aead" /\
    kms.Encrypt wrapper (RootKey.Key r)
    = Ok (KeyEncryptionKeyWrapper.EncryptedDataEncryptionKey kekWrapper) /\
    if 0 <? length (RootKey.RSAKey r)
    then kms.Encrypt wrapper (RootKey.RSAKey r)
         = Ok (KeyEncryptionKeyWrapper.EncryptedRSAKey kekWrapper)
    else KeyEncryptionKeyWrapper.EncryptedRSAKey kekWrapper = [].
Proof.
  intros Henc Hp Hmeta. unfold encryptDEK in Henc.
  rewrite Hp, Hmeta, String.eqb_refl in Henc. cbn [orb] in Henc.
  destruct (crypto_Bytes w 32) as [[kek|err|m] w2]; cbn [wrapping obind] in Henc;
    try done.
  rewrite (newKMSWrapper_default e "aead") in Henc by done.
  destruct (aead_NewWrapper (RootKeyMeta.KeyID meta) kek) as [wrapper| |] eqn:Hw;
    try done.
  destruct (kms.Encrypt wrapper (RootKey.Key r)) as [rootBlob| |] eqn:Hroot;
    simpl in Henc; try done.
  exists wrapper. destruct (0 <? length (RootKey.RSAKey r)).
  - destruct (kms.Encrypt wrapper (RootKey.RSAKey r)) as [rsaBlob| |] eqn:Hrsa;
      simpl in Henc; try done.
    by injection Henc as <- <-.
  - by injection Henc as <- <-.
Qed.

(** The other half of the keystore round trip: a key saved under the
    built-in AEAD provider alone, into an empty keystore, is restored by
    loadKeystore with the same metadata, key and RSA key. *)
Theorem saved_under_aead_loads `{!KMSCorrect L} (e e0 e1 : Encrypter) (w w' : World)
    (r : RootKey.t) (meta : RootKeyMeta.t) (p : KEKProvider.t) :
  RootKey.Meta r = Some meta ->
  IsUUID (RootKeyMeta.KeyID meta) = true ->
  RootKeyMeta_Validate (Some meta) = Ok tt ->
  RootKeyMeta.KEKProviders meta = [Some p] ->
  KEKProvider.Provider p = "aead" ->
  disk w = Tree [] ->
  HasSuffix (keystorePath e) nomadKeystoreExtension = false ->
  saveKeyToStore e w r = (Ok tt, w') ->
  keystorePath e0 = keystorePath e ->
  addCipher e0 (Some r) = Ok e1 ->
  loadKeystore e0 w' = (Ok tt, e1, w') /\
  GetKey e1 (RootKeyMeta.KeyID meta) = Ok (RootKey.Key r, RootKey.RSAKey r).
Proof.
  intros Hmeta Hid Hvalid Hprov Hp Hdisk Hroot Hsave Hpath Hadd.
  set (id := RootKeyMeta.KeyID meta) in *.
  assert (noSlash (id +:+ nomadKeystoreExtension) = true) as Hname.
  { apply IsUUID_shape in Hid as [_ Hs]. by rewrite noSlash_app, Hs. }
  unfold saveKeyToStore in Hsave. rewrite Hmeta, Hprov in Hsave. simpl in Hsave.
  pose proof (encryptDEK_disk e w r (Some p)) as Hd.
  destruct (encryptDEK e w r (Some p)) as [[kekWrapper|err|m] w1] eqn:Henc; try done.
  simpl in Hd. rewrite Hdisk in Hd.
  destruct (encryptDEK_aead_Ok _ _ _ _ _ _ _ Henc Hp Hmeta)
    as (wrapper & Hw & Hkm & Hkp & Hroot' & Hrsa).
  assert (keyFileExtension p = nomadKeystoreExtension) as Hext
    by (unfold keyFileExtension; by rewrite Hp).
  rewrite Hext in Hsave. fold id in Hsave.
  unfold os_WriteFile in Hsave. rewrite Hd, entryName_Join, Hname in Hsave.
  simpl in Hsave. injection Hsave as <-.
  set (w' := withDisk w1 _).
  assert (loadKeyFromStore e0 w' (Join (keystorePath e0) (id +:+ nomadKeystoreExtension))
          = Ok r) as Hload.
  { destruct (aead_unwrap L _ _ _ _ _ Hw Hroot') as [Hkey _].
    replace r with (RootKey.mk (Some meta) (RootKey.Key r) (RootKey.RSAKey r))
      by (destruct r; simpl in *; by rewrite Hmeta).
    apply (loadKeyFromStore_Ok e0 w' _ kekWrapper meta wrapper); try done.
    - apply (os_ReadFile_entry w' _ _ [(id +:+ nomadKeystoreExtension, File (Json kekWrapper))]);
        try done.
      simpl. by rewrite String.eqb_refl.
    - rewrite newKMSWrapper_default; [done | by rewrite Hkp].
    - simpl. destruct (0 <? length (RootKey.RSAKey r)) eqn:Hlen.
      + destruct (aead_unwrap L _ _ _ _ _ Hw Hrsa) as [Hrsa' Hpos].
        by rewrite (proj2 (Nat.ltb_lt _ _) Hpos).
      + rewrite Hrsa. simpl. apply Nat.ltb_ge in Hlen.
        by destruct (RootKey.RSAKey r); [|simpl in Hlen; lia]. }
  split.
  - erewrite loadKeystore_walk; [| reflexivity | by rewrite Hpath].
    simpl. unfold walkFn. rewrite Join_neq. cbn [negb andb].
    rewrite (HasSuffix_Join _ _ _ extension_noSlash), HasSuffix_app. cbn [negb].
    rewrite Base_Join, TrimSuffix_app, Hid; [| done | by destruct id]. cbn [negb].
    rewrite Hload, Hmeta. fold id. rewrite String.eqb_refl. cbn [negb].
    by rewrite Hadd.
  - apply addCipher_Ok in Hadd as (r' & meta' & ks & [= <-] & Hm & Hks & ->).
    rewrite Hmeta in Hm. injection Hm as <-.
    apply newKeyset_Ok in Hks as (Hr & _).
    unfold GetKey, keysetByIDLocked. simpl. rewrite lookup_insert_eq. simpl.
    by rewrite Hr.
Qed.

End Load.

Section LoadRuns.
Import Reference Sample.

(** A file left in the keystore whose name ends in the extension and does
    not start with a UUID: the load does not fail. *)
Lemma loadKeystore_passes_over_non_uuid :
  let w := world None (Tree [("notes.nks.json", File (Garbage []))]) in
  HasSuffix "notes.nks.json" nomadKeystoreExtension = true /\
  IsUUID (TrimSuffix "notes.nks.json" nomadKeystoreExtension) = false /\
  loadKeystore (L := libs) empty w = (Ok tt, empty, w).
Proof. vm_compute. done. Qed.

(** A subdirectory, a file with another extension, a file named like a key
    file but not by a UUID: nothing is loaded and nothing fails.  And the
    file of K1 renamed to K2 makes the load fail. *)
Lemma loadKeystore_validation_witness :
  let w := world None (Tree [("backup", Dir);
                             ("notes.nks.json", File (Garbage []));
                             ("readme.txt", File (Garbage []))]) in
  let w' := world None (Tree [(K2 +:+ ".nks.json", File (Json (wrapped "aead")))]) in
  loadKeystore (L := libs) empty w = (Ok tt, empty, w) /\
  is_ok (loadKeystore (L := libs) empty w').1.1 = false.
Proof.
  intros w w'. split.
  - eapply (loadKeystore_validation (L := libs) empty w); [reflexivity | reflexivity |].
    repeat constructor.
  - apply (proj2 (loadKeystore_validation (L := libs) empty w' _ eq_refl eq_refl)
             K2 (wrapped "aead") meta1); [reflexivity | reflexivity | reflexivity | done].
Defined.

(** Scenario 5 of the specification: the file of K1, hand-edited to name the
    provider "nonesuch", loads, and the server starts with K1 in its
    keyring. *)
Lemma unknown_provider_loads :
  let w := world None (Tree [(K1 +:+ ".nks.json", File (Json (wrapped "nonesuch")))]) in
  loadKeyFromStore (L := libs) empty w (fileOf (K1 +:+ ".nks.json")) = Ok key1 /\
  exists e, NewEncrypter (L := libs) (mkConfig "" []) w keystore = (Ok e, w) /\
            GetKey e K1 = Ok (dek Byte.x11, []).
Proof.
  split; [by vm_compute |].
  eexists. split; [by vm_compute | by vm_compute].
Qed.

Lemma loadKeyFromStore_unlisted_provider_witness :
  let w := world None (Tree [(K1 +:+ ".nks.json", File (Json (wrapped "nonesuch")))]) in
  newKMSWrapper (L := libs) empty "nonesuch" "" K1 kek = Ok (wrapperWith kek) /\
  loadKeyFromStore (L := libs) empty w (fileOf (K1 +:+ ".nks.json")) = Ok key1.
Proof.
  intros w.
  apply (loadKeyFromStore_unlisted_provider (L := libs) empty w
           (fileOf (K1 +:+ ".nks.json")) (wrapped "nonesuch") meta1 (wrapperWith kek)
           (dek Byte.x11) []); by vm_compute.
Defined.


(** K1 wrapped by the built-in provider: after a restart the keyring holds
    what AddKey installed. *)
Lemma saved_under_aead_loads_witness :
  exists e1 w',
    AddKey (L := libs) empty world1 (Some key1) = (Ok tt, e1, w') /\
    loadKeystore (L := libs) empty w' = (Ok tt, e1, w') /\
    GetKey e1 K1 = Ok (dek Byte.x11, []).
Proof.
  destruct (addCipher (L := libs) empty (Some key1)) as [e1| |] eqn:Hadd;
    [| by vm_compute in Hadd..].
  destruct (saveKeyToStore (L := libs) e1 world1 key1) as [r w'] eqn:Hsave.
  assert (keystorePath e1 = keystore) as Hpath
    by (by rewrite (addCipher_keystorePath _ _ _ Hadd)).
  assert (r = Ok tt) as ->.
  { vm_compute in Hadd. injection Hadd as <-.
    vm_compute in Hsave. by injection Hsave as <- _. }
  destruct (saved_under_aead_loads (L := libs)
              (KMSCorrect0 := ReferenceFacts.kms_correct gcm) e1 empty e1 world1 w'
              key1 meta1 (KEKProvider.mk "aead" ""))
    as [Hload Hget]; try done.
  { by rewrite Hpath. }
  exists e1, w'. split; [|done].
  unfold AddKey. by rewrite Hadd, Hsave.
Defined.

(** A server started on the keystore that holds the file of K1. *)
Lemma keyring_invariant_witness :
  exists e w',
    NewEncrypter (L := libs) (mkConfig "" [])
      (world None (Tree [(K1 +:+ ".nks.json", File (Json (wrapped "aead")))])) keystore
    = (Ok e, w') /\
    GetKey e K1 = Ok (dek Byte.x11, []) /\
    keyring_ok (L := libs) e.
Proof.
  destruct (NewEncrypter (L := libs) (mkConfig "" [])
              (world None (Tree [(K1 +:+ ".nks.json", File (Json (wrapped "aead")))]))
              keystore) as [[e| |] w'] eqn:Hnew; [| by vm_compute in Hnew..].
  exists e, w'. split; [done |]. split.
  - vm_compute in Hnew. injection Hnew as <- _. by vm_compute.
  - by destruct (keyring_invariant (L := libs) _ _ _ _ _ Hnew) as [Hok _].
Defined.

End LoadRuns.

(** ** Key material and public keys *)

Section KeyMaterial.
Context {L : Libs}.

Lemma newKeyset_length (r : RootKey.t) (meta : RootKeyMeta.t) (ks : keyset) :
  newKeyset r meta = Ok ks -> length (RootKey.Key r) = SeedSize.
Proof.
  unfold newKeyset, NewKeyFromSeed.
  destruct (String.eqb _ _); [|done].
  destruct (aes_NewCipher _) as [block| |]; simpl; try done.
  destruct (cipher_NewGCM block) as [c| |]; simpl; try done.
  destruct (length (RootKey.Key r) =? SeedSize) eqn:Hlen; [|done].
  by apply Nat.eqb_eq in Hlen.
Qed.

Lemma keyset_ok_length (id : string) (ks : keyset) :
  keyset_ok id ks -> length (RootKey.Key (rootKey ks)) = SeedSize.
Proof. intros (meta & _ & _ & Hnew). by apply newKeyset_length in Hnew. Qed.

(** addCipher takes key material of 32 bytes only.  A key of another
    length that [aes.NewCipher] accepts (16 or 24 bytes) is not refused
    with an error: [ed25519.NewKeyFromSeed] panics on it, in addCipher and
    so in AddKey, before the keyring or the keystore is touched. *)
Theorem addCipher_key_length (e : Encrypter) (w : World) (r : RootKey.t)
    (meta : RootKeyMeta.t) :
  RootKey.Meta r = Some meta ->
  (forall e', addCipher e (Some r) = Ok e' -> length (RootKey.Key r) = 32) /\
  (forall block c,
     RootKeyMeta.Algorithm meta = EncryptionAlgorithmAES256GCM ->
     aes_NewCipher (RootKey.Key r) = Ok block -> cipher_NewGCM block = Ok c ->
     length (RootKey.Key r) <> 32 ->
     addCipher e (Some r) = Panic "ed25519: bad seed length" /\
     AddKey e w (Some r) = (Panic "ed25519: bad seed length", e, w)).
Proof.
  intros Hmeta. split.
  - intros e' (r' & meta' & ks & [= <-] & _ & Hnew & _)%addCipher_Ok.
    by apply newKeyset_length in Hnew.
  - intros block c Halg Hblock Hc Hlen.
    assert (addCipher e (Some r) = Panic "ed25519: bad seed length") as Hadd.
    { unfold addCipher, newKeyset, NewKeyFromSeed, SeedSize.
      rewrite Hmeta, Halg, Hblock. simpl.
      rewrite Hc. simpl. by apply Nat.eqb_neq in Hlen as ->. }
    split; [done |]. unfold AddKey. by rewrite Hadd.
Qed.

(** The public key GetPublicKey publishes for a key of the keyring is
    derived from the stored root key: with RSA key bytes, RS256 and the
    PKCS#1 form of the public half of the parsed RSA key; without, EdDSA
    and the Ed25519 public key of the key made from the DEK as seed.  It
    carries the requested ID, the use "sig" and the creation time of the
    key's metadata; an ID the keyring does not hold is no-such-key. *)
Theorem GetPublicKey_of_root_key (e : Encrypter) (keyID : string) :
  keyring_ok e ->
  match keyring e !! keyID with
  | None => GetPublicKey e keyID = Err (ErrNoSuchKey keyID)
  | Some ks =>
      exists meta,
        RootKey.Meta (rootKey ks) = Some meta /\
        RootKeyMeta.KeyID meta = keyID /\
        if 0 <? length (RootKey.RSAKey (rootKey ks)) then
          exists priv,
            x509_ParsePKCS1PrivateKey (RootKey.RSAKey (rootKey ks)) = Ok priv /\
            GetPublicKey e keyID
            = Ok (KeyringPublicKey.mk keyID
                    (x509_MarshalPKCS1PublicKey (rsa.Public priv))
                    PubKeyAlgRS256 PubKeyUseSig (RootKeyMeta.CreateTime meta))
        else
          GetPublicKey e keyID
          = Ok (KeyringPublicKey.mk keyID
                  (ed25519_Public (ed25519_NewKeyFromSeed (RootKey.Key (rootKey ks))))
                  PubKeyAlgEdDSA PubKeyUseSig (RootKeyMeta.CreateTime meta))
  end.
Proof.
  intros Hok. unfold GetPublicKey, keysetByIDLocked.
  destruct (keyring e !! keyID) as [ks|] eqn:Hks; [|done].
  destruct (Hok _ _ Hks) as (meta & Hmeta & Hid & Hnew).
  exists meta. split; [done |]. split; [done |]. simpl. rewrite Hmeta.
  revert Hnew. generalize (rootKey ks) as r. intros r Hnew.
  unfold newKeyset, NewKeyFromSeed in Hnew.
  destruct (String.eqb _ _); [|done].
  destruct (aes_NewCipher _) as [block| |]; simpl in Hnew; try done.
  destruct (cipher_NewGCM block) as [c| |]; simpl in Hnew; try done.
  destruct (length (RootKey.Key r) =? SeedSize); [|done]. simpl in Hnew.
  destruct (0 <? length (RootKey.RSAKey r)).
  - destruct (x509_ParsePKCS1PrivateKey (RootKey.RSAKey r)) as [priv| |];
      simpl in Hnew; try done.
    exists priv. split; [done |]. by injection Hnew as <-.
  - by injection Hnew as <-.
Qed.

(** RemoveKey forgets the key in memory whatever its state: afterwards
    GetKey, GetPublicKey and Decrypt by its ID are no-such-key (Decrypt
    on any buffer), and so is Encrypt while the state store still names it
    the active key.  Every other key answers as before, removing a key the
    keyring does not hold changes nothing, and removing a key that addCipher
    has just added to a keyring without it gives the encrypter back. *)
Theorem RemoveKey_forgets (e : Encrypter) (keyID : string) :
  let e' := (RemoveKey e keyID).2 in
  (GetKey e' keyID = Err (ErrNoSuchKey keyID) /\
   GetPublicKey e' keyID = Err (ErrNoSuchKey keyID) /\
   (forall s, Decrypt e' s keyID = Err (ErrNoSuchKey keyID)) /\
   (forall w meta cleartext,
      activeRootKeyMeta w = Ok (Some meta) -> RootKeyMeta.KeyID meta = keyID ->
      Encrypt e' w cleartext = (Err (ErrNoSuchKey keyID), w))) /\
  (forall other,
     other <> keyID ->
     GetKey e' other = GetKey e other /\
     GetPublicKey e' other = GetPublicKey e other /\
     forall s, Decrypt e' s other = Decrypt e s other) /\
  (keyring e !! keyID = None -> e' = e) /\
  (forall e0 r meta,
     addCipher e0 (Some r) = Ok e -> RootKey.Meta r = Some meta ->
     RootKeyMeta.KeyID meta = keyID -> keyring e0 !! keyID = None ->
     e' = e0).
Proof.
  cbv zeta. unfold RemoveKey. cbn [snd]. repeat split.
  - unfold GetKey, keysetByIDLocked. simpl. by rewrite lookup_delete_eq.
  - unfold GetPublicKey, keysetByIDLocked. simpl. by rewrite lookup_delete_eq.
  - intros s. unfold Decrypt, keysetByIDLocked. simpl. by rewrite lookup_delete_eq.
  - intros w meta cleartext Hactive Hid.
    unfold Encrypt, activeKeySet, keysetByIDLocked. rewrite Hactive. simpl.
    by rewrite Hid, lookup_delete_eq.
  - unfold GetKey, keysetByIDLocked. simpl. by rewrite lookup_delete_ne.
  - unfold GetPublicKey, keysetByIDLocked. simpl. by rewrite lookup_delete_ne.
  - intros s. unfold Decrypt, keysetByIDLocked. simpl. by rewrite lookup_delete_ne.
  - intros Hnone. destruct e. unfold withKeyring. simpl in *.
    by rewrite delete_id.
  - intros e0 r meta (r' & meta' & ks & [= <-] & Hm & _ & ->)%addCipher_Ok Hmeta Hid Hnone.
    rewrite Hmeta in Hm. injection Hm as <-. subst keyID.
    destruct e0. unfold withKeyring. simpl in *.
    by rewrite delete_insert_id.
Qed.

(** addCipher files a key under its ID whatever the keyring holds there.
    Adding the same root key again changes nothing, adding it after
    RemoveKey of its ID gives the same keyring, and a root key with other
    material under the same ID replaces the earlier one without an error
    and without a trace of it. *)
Theorem addCipher_replaces (e e1 : Encrypter) (r : RootKey.t) (meta : RootKeyMeta.t) :
  addCipher e (Some r) = Ok e1 ->
  RootKey.Meta r = Some meta ->
  addCipher e1 (Some r) = Ok e1 /\
  addCipher (RemoveKey e (RootKeyMeta.KeyID meta)).2 (Some r) = Ok e1 /\
  forall r' meta' e2,
    RootKey.Meta r' = Some meta' ->
    RootKeyMeta.KeyID meta' = RootKeyMeta.KeyID meta ->
    addCipher e1 (Some r') = Ok e2 ->
    addCipher e (Some r') = Ok e2 /\
    GetKey e2 (RootKeyMeta.KeyID meta) = Ok (RootKey.Key r', RootKey.RSAKey r').
Proof.
  intros (r0 & meta0 & ks & [= <-] & Hm & Hks & ->)%addCipher_Ok Hmeta.
  rewrite Hmeta in Hm. injection Hm as <-.
  split; [|split].
  - unfold addCipher. rewrite Hmeta, Hks. simpl. unfold withKeyring. simpl.
    by rewrite insert_insert_eq.
  - unfold addCipher. rewrite Hmeta, Hks. simpl. unfold withKeyring. simpl.
    by rewrite insert_delete_eq.
  - intros r' meta' e2 Hmeta' Hid
      (r1 & meta1 & ks' & [= <-] & Hm' & Hks' & ->)%addCipher_Ok.
    rewrite Hmeta' in Hm'. injection Hm' as <-. split.
    + unfold addCipher. rewrite Hmeta', Hks'. simpl. unfold withKeyring. simpl.
      by rewrite Hid, insert_insert_eq.
    + apply newKeyset_Ok in Hks' as [Hroot _].
      unfold GetKey, keysetByIDLocked. simpl.
      rewrite Hid, lookup_insert_eq. simpl. by rewrite Hroot.
Qed.

End KeyMaterial.

(** ** What was encrypted or signed, while the keyring changes *)

Section Lifetime.
Context {L : Libs}.

(** The results of Encrypt, case by case.  On a keyring built by
    addCipher it never panics; it fails with not-initialized when the state
    store has no active key, with no-such-key when the keyring lacks the
    active key's material, both before any random byte is read, and with a
    wrapped error of the random source when that delivers fewer than 12
    bytes; in every other case it succeeds under the active key's ID and
    uses 12 random bytes. *)
Theorem Encrypt_outcomes `{!GCMFraming L} (e : Encrypter) (w : World) (cleartext : bytes) :
  keyring_ok e ->
  match activeRootKeyMeta w with
  | Ok None => Encrypt e w cleartext = (Err ErrNotInitialized, w)
  | Ok (Some meta) =>
      match keyring e !! RootKeyMeta.KeyID meta with
      | None => Encrypt e w cleartext = (Err (ErrNoSuchKey (RootKeyMeta.KeyID meta)), w)
      | Some ks =>
          if 12 <=? length (entropy w) then
            exists ciphertext,
              Encrypt e w cleartext
              = (Ok (ciphertext, RootKeyMeta.KeyID meta),
                 withEntropy w (drop 12 (entropy w)))
          else
            Encrypt e w cleartext
            = (Err (ErrWrap "failed to generate key wrapper nonce" ErrEntropy),
               withEntropy w [])
      end
  | Err err => Encrypt e w cleartext = (Err err, w)
  | Panic m => Encrypt e w cleartext = (Panic m, w)
  end.
Proof.
  intros Hok.
  destruct (activeRootKeyMeta w) as [[meta|]|err|m] eqn:Hactive;
    try (unfold Encrypt, activeKeySet; by rewrite Hactive).
  destruct (keyring e !! RootKeyMeta.KeyID meta) as [ks|] eqn:Hks.
  - destruct (12 <=? length (entropy w)) eqn:Hlen.
    + apply Nat.leb_le in Hlen. eexists.
      by apply (Encrypt_Ok e w meta ks cleartext Hactive Hks (Hok _ _ Hks)).
    + destruct (keyset_ok_cipher _ _ (Hok _ _ Hks)) as [block Hblock].
      unfold Encrypt, activeKeySet, keysetByIDLocked. rewrite Hactive. simpl.
      rewrite Hks. unfold crypto_Bytes.
      by rewrite (gcm_NonceSize L block _ Hblock), Hlen.
  - unfold Encrypt, activeKeySet, keysetByIDLocked. rewrite Hactive. simpl.
    by rewrite Hks.
Qed.

(** What Encrypt returned decrypts under any later keyring that holds the
    same keyset under the same ID. *)
Lemma Decrypt_same_keyset `{!GCMCorrect L} (e e' : Encrypter) (w w' : World)
    (cleartext ciphertext : bytes) (k : string) (s : slice) :
  keyring_ok e ->
  Encrypt e w cleartext = (Ok (ciphertext, k), w') ->
  elems s = ciphertext ->
  keyring e' !! k = keyring e !! k ->
  Decrypt e' s k = Ok cleartext.
Proof.
  intros Hok (meta & ks & nonce & _ & Hks & Hlen & Hid & ->)%Encrypt_inv Hs Hsame.
  pose proof (Hok _ _ Hks) as Hk.
  rewrite (keyset_ok_ID _ _ Hk) in Hid. injection Hid as <-.
  destruct (keyset_ok_cipher _ _ Hk) as [block Hblock].
  rewrite (gcm_NonceSize L block _ Hblock) in Hlen.
  rewrite (gcm_Seal_dst L block _ nonce) in Hs by done.
  rewrite <- Hsame in Hks.
  rewrite (Decrypt_framed e' s _ ks nonce _ Hks Hk Hlen Hs).
  by apply (gcm_Open_Seal L block).
Qed.

(** Decrypt does not ask which key is active: a ciphertext made by
    Encrypt still decrypts after other keys have been added to the keyring
    or removed from it, whatever the state store then says; once its own
    key has been removed, Decrypt answers no-such-key. *)
Theorem Decrypt_while_key_held `{!GCMCorrect L} (e : Encrypter) (w w' : World)
    (cleartext ciphertext : bytes) (k : string) (s : slice) :
  keyring_ok e ->
  Encrypt e w cleartext = (Ok (ciphertext, k), w') ->
  elems s = ciphertext ->
  (forall r meta e1,
     addCipher e (Some r) = Ok e1 -> RootKey.Meta r = Some meta ->
     RootKeyMeta.KeyID meta <> k ->
     Decrypt e1 s k = Ok cleartext) /\
  (forall other, other <> k -> Decrypt (RemoveKey e other).2 s k = Ok cleartext) /\
  Decrypt (RemoveKey e k).2 s k = Err (ErrNoSuchKey k).
Proof.
  intros Hok Henc Hs. repeat split.
  - intros r meta e1 Hadd Hmeta Hne.
    apply (Decrypt_same_keyset e e1 w w' cleartext ciphertext); try done.
    by apply (addCipher_other_key e e1 r meta).
  - intros other Hne.
    apply (Decrypt_same_keyset e _ w w' cleartext ciphertext); try done.
    simpl. by rewrite lookup_delete_ne.
  - unfold Decrypt, keysetByIDLocked. simpl. by rewrite lookup_delete_eq.
Qed.

(** What SignClaims signed with a keyset verifies on any keyring that holds
    that keyset under its ID. *)
Lemma signWith_VerifyClaim `{!JoseCorrect L} (e e' : Encrypter) (ks : keyset)
    (claims : IdentityClaims.t) (raw keyID : string) :
  keyring e' !! keyID = Some ks -> keyset_ok keyID ks ->
  signWith e ks claims = Ok (raw, keyID) ->
  keyID <> "" ->
  exists token,
    jwt_ParseSigned raw = Ok token /\
    joseutil_KeyID token = Ok keyID /\
    (claims_Validate (issued e claims) = Ok tt ->
     VerifyClaim e' raw = Ok (issued e claims)).
Proof.
  intros Hks Hk Hsign Hne.
  unfold signWith in Hsign.
  rewrite (keyset_ok_ID _ _ Hk) in Hsign. simpl in Hsign.
  set (key := match rsaPrivateKey ks with
              | Some rsaKey => SignRSA rsaKey
              | None => SignEd25519 (eddsaPrivateKey ks)
              end).
  set (opts := mkOpts keyID "JWT") in Hsign.
  assert (exists alg sig,
            jose_NewSigner alg key opts = Ok sig /\
            jwt_CompactSerialize sig (issued e claims) = Ok raw)
    as (alg & sig & Hsig & Hraw).
  { unfold key. unfold obind in Hsign.
    destruct (rsaPrivateKey ks) as [priv|].
    - destruct (jose_NewSigner RS256 _ opts) as [sig| |] eqn:Hsig; try done.
      destruct (jwt_CompactSerialize sig _) as [raw'| |] eqn:Hraw; try done.
      injection Hsign as <-. eauto 10.
    - destruct (jose_NewSigner EdDSA _ opts) as [sig| |] eqn:Hsig; try done.
      destruct (jwt_CompactSerialize sig _) as [raw'| |] eqn:Hraw; try done.
      injection Hsign as <-. eauto 10. }
  destruct (jose_roundtrip L alg key opts sig _ raw Hsig Hraw Hne)
    as (token & Hparse & Hkid & Hclaims).
  destruct (GetPublicKey_matches e' _ ks Hks Hk) as (pubKey & Hpub & Hpubid & Htyped).
  exists token. split; [done |]. split; [done |]. intros Hvalid.
  unfold VerifyClaim. rewrite Hparse. simpl. rewrite Hkid. simpl.
  rewrite Hpub. simpl. rewrite Htyped. simpl. fold key. rewrite Hclaims. simpl.
  by rewrite Hvalid.
Qed.

(** VerifyClaim does not ask which key is active either: a token made by
    SignClaims verifies after other keys have been added or removed, and
    once its signing key has been removed VerifyClaim answers no-such-key
    for that key ID. *)
Theorem VerifyClaim_while_key_held `{!JoseCorrect L} (e : Encrypter) (w : World)
    (view : nat -> Encrypter * World) (polls : nat) (claims : IdentityClaims.t)
    (ks : keyset) (raw keyID : string) :
  keyring_ok e ->
  activeKeySet e w = Ok ks ->
  SignClaims e w view polls claims = Ok (raw, keyID) ->
  keyID <> "" ->
  claims_Validate (issued e claims) = Ok tt ->
  (forall r meta e1,
     addCipher e (Some r) = Ok e1 -> RootKey.Meta r = Some meta ->
     RootKeyMeta.KeyID meta <> keyID ->
     VerifyClaim e1 raw = Ok (issued e claims)) /\
  (forall other,
     other <> keyID -> VerifyClaim (RemoveKey e other).2 raw = Ok (issued e claims)) /\
  VerifyClaim (RemoveKey e keyID).2 raw = Err (ErrNoSuchKey keyID).
Proof.
  intros Hok Hactive Hsign Hne Hvalid.
  destruct (activeKeySet_Ok _ _ _ Hactive) as (meta & _ & Hks).
  pose proof (Hok _ _ Hks) as Hk.
  unfold SignClaims in Hsign. rewrite Hactive in Hsign.
  assert (RootKeyMeta.KeyID meta = keyID) as Hid.
  { unfold signWith in Hsign. rewrite (keyset_ok_ID _ _ Hk) in Hsign. simpl in Hsign.
    destruct (match rsaPrivateKey ks with Some _ => _ | None => _ end) as [sig| |];
      simpl in Hsign; try done.
    destruct (jwt_CompactSerialize sig _); simpl in Hsign; try done.
    by injection Hsign as _ <-. }
  rewrite Hid in *. repeat split.
  - intros r meta' e1 Hadd Hmeta Hother.
    destruct (signWith_VerifyClaim e e1 ks claims raw keyID) as (_ & _ & _ & H);
      try done; [|by apply H].
    by rewrite (addCipher_other_key e e1 r meta').
  - intros other Hother.
    destruct (signWith_VerifyClaim e (RemoveKey e other).2 ks claims raw keyID)
      as (_ & _ & _ & H); try done; [|by apply H].
    simpl. by rewrite lookup_delete_ne.
  - destruct (signWith_VerifyClaim e e ks claims raw keyID) as (token & Hparse & Hkid & _);
      try done.
    unfold VerifyClaim. rewrite Hparse. simpl. rewrite Hkid. simpl.
    unfold GetPublicKey, keysetByIDLocked. simpl. by rewrite lookup_delete_eq.
Qed.

End Lifetime.

(** ** Key encryption key providers *)

Section Providers.
Context {L : Libs}.

Local Arguments addCipher : simpl never.
Local Arguments loadKeyFromStore : simpl never.
Local Arguments encryptDEK : simpl never.

Lemma withKeyring_same (e : Encrypter) : withKeyring e (keyring e) = e.
Proof. by destruct e. Qed.

(** The visit of one path changes the keyring only. *)
Lemma walkFn_withKeyring (e : Encrypter) (w : World) (path : string) (info : node) :
  exists k, (walkFn e w path info).2 = withKeyring e k.
Proof.
  assert (exists k, e = withKeyring e k) as Hsame
    by (exists (keyring e); by rewrite withKeyring_same).
  unfold walkFn.
  destruct info as [|text|]; [| |done];
    (destruct (String.eqb path (keystorePath e)); cbn [negb andb];
     [| try done; rewrite ?andb_false_r]);
    (destruct (HasSuffix path _); cbn [negb]; [|done]);
    (destruct (IsUUID _); cbn [negb]; [|done]);
    (destruct (loadKeyFromStore e w path) as [key| |]; [|done..]);
    (destruct (RootKey.Meta key) as [meta|]; [|done]);
    (destruct (String.eqb (RootKeyMeta.KeyID meta) _); cbn [negb]; [|done]);
    (destruct (addCipher e (Some key)) as [e'| |] eqn:Hadd; [|done..]);
    apply addCipher_Ok in Hadd as (r' & meta' & ks & _ & _ & _ & ->); by eexists.
Qed.

Lemma walkEntries_withKeyring (e : Encrypter) (w : World) (entries : list (string * node)) :
  exists k, (walkEntries e w entries).2 = withKeyring e k.
Proof.
  revert e. induction entries as [|[name info] rest IH]; intros e.
  { exists (keyring e). by rewrite withKeyring_same. }
  simpl. destruct (walkFn_withKeyring e w (Join (keystorePath e) name) info) as [k Hk].
  destruct (walkFn e w (Join (keystorePath e) name) info) as [[[]|err|m] e'];
    simpl in *; subst e'; try by eexists.
  - destruct (IH (withKeyring e k)) as [k' ->]. by exists k'.
  - destruct err; try by eexists.
    destruct info;
      first [by eexists | destruct (IH (withKeyring e k)) as [k' ->]; by exists k'].
Qed.

Lemma loadKeystore_withKeyring (e : Encrypter) (w : World) :
  exists k, (loadKeystore e w).1.2 = withKeyring e k.
Proof.
  assert (exists k, e = withKeyring e k) as Hsame
    by (exists (keyring e); by rewrite withKeyring_same).
  unfold loadKeystore.
  destruct (os_MkdirAll w) as [[[]|err|m] w']; try done. simpl.
  unfold Walk. destruct (disk w') as [| |entries]; try by apply walkFn_withKeyring.
  destruct (walkFn_withKeyring e w' (keystorePath e) Dir) as [k Hk].
  destruct (walkFn e w' (keystorePath e) Dir) as [[[]|err|m] e']; simpl in *; subst e';
    try by eexists.
  - destruct (walkEntries_withKeyring (withKeyring e k) w' entries) as [k' Hk'].
    destruct (walkEntries (withKeyring e k) w' entries) as [[[]|err|m] e''];
      simpl in *; subst e''; try by eexists.
    destruct err; by eexists.
  - destruct err; by eexists.
Qed.

(** What NewEncrypter returns.  It succeeds only for a server without KEK
    provider configurations, and the encrypter it returns has the keystore
    path and the issuer it was given and a nil map of provider
    configurations: for each of the four external providers newKMSWrapper
    then returns the wrapper as the library makes it, [SetConfig] is not
    called. *)
Theorem NewEncrypter_result (config : Config) (w w' : World) (path : string)
    (e : Encrypter) :
  NewEncrypter config w path = (Ok e, w') ->
  KEKProviderConfigs config = [] /\
  providerConfigs e = None /\ keystorePath e = path /\ issuer e = OIDCIssuer config /\
  forall name keyID kek,
    newKMSWrapper e "awskms" name keyID kek = Ok awskms_NewWrapper /\
    newKMSWrapper e "azurekeyvault" name keyID kek = Ok azurekeyvault_NewWrapper /\
    newKMSWrapper e "gcpckms" name keyID kek = Ok gcpckms_NewWrapper /\
    newKMSWrapper e "transit" name keyID kek = Ok transit_NewWrapper.
Proof.
  intros Hnew. unfold NewEncrypter in Hnew.
  destruct (KEKProviderConfigs config) as [|[p|] rest]; try done. simpl in Hnew.
  set (e0 := mkEncrypter None path (OIDCIssuer config) ∅) in Hnew.
  destruct (loadKeystore_withKeyring e0 w) as [k Hk].
  destruct (loadKeystore e0 w) as [[[[]|err|m] e1] w1]; try done.
  injection Hnew as <- _. simpl in Hk. subst e1.
  split; [done |]. split; [done |]. split; [done |]. split; [done |].
  intros name keyID kek. unfold newKMSWrapper, configured, providerConfig. by simpl.
Qed.

(** What a successful encryptDEK made. *)
Lemma encryptDEK_inv (e : Encrypter) (w w1 : World) (r : RootKey.t)
    (p : KEKProvider.t) (kekWrapper : KeyEncryptionKeyWrapper.t) :
  encryptDEK e w r (Some p) = (Ok kekWrapper, w1) ->
  exists meta wrapper,
    RootKey.Meta r = Some meta /\
    KeyEncryptionKeyWrapper.Meta kekWrapper = Some meta /\
    KeyEncryptionKeyWrapper.Provider kekWrapper = KEKProvider.Provider p /\
    KeyEncryptionKeyWrapper.ProviderName kekWrapper = KEKProvider.Name p /\
    (if builtinProvider (KEKProvider.Provider p)
     then length (KeyEncryptionKeyWrapper.KeyEncryptionKey kekWrapper) = 32
     else KeyEncryptionKeyWrapper.KeyEncryptionKey kekWrapper = []) /\
    newKMSWrapper e (KEKProvider.Provider p) (KEKProvider.Name p) (RootKeyMeta.KeyID meta)
      (KeyEncryptionKeyWrapper.KeyEncryptionKey kekWrapper) = Ok wrapper /\
    kms.Encrypt wrapper (RootKey.Key r)
    = Ok (KeyEncryptionKeyWrapper.EncryptedDataEncryptionKey kekWrapper) /\
    if 0 <? length (RootKey.RSAKey r)
    then kms.Encrypt wrapper (RootKey.RSAKey r)
         = Ok (KeyEncryptionKeyWrapper.EncryptedRSAKey kekWrapper)
    else KeyEncryptionKeyWrapper.EncryptedRSAKey kekWrapper = [].
Proof.
  unfold encryptDEK, builtinProvider. intros Henc.
  assert (exists kek w2,
            (if String.eqb (KEKProvider.Provider p) "aead"
                || String.eqb (KEKProvider.Provider p) ""
             then crypto_Bytes w 32 else (Ok [], w)) = (Ok kek, w2) /\
            if String.eqb (KEKProvider.Provider p) "aead"
               || String.eqb (KEKProvider.Provider p) ""
            then length kek = 32 else kek = []) as (kek & w2 & Hkek & Hlen).
  { destruct (_ || _).
    - unfold crypto_Bytes in *. destruct (32 <=? length (entropy w)) eqn:H32; [|done].
      apply Nat.leb_le in H32. eexists _, _. split; [done |].
      rewrite length_take. lia.
    - by eexists _, _. }
  rewrite Hkek in Henc. cbn [wrapping obind] in Henc.
  destruct (RootKey.Meta r) as [meta|]; [|done].
  destruct (newKMSWrapper _ _ _ _ _) as [wrapper| |] eqn:Hw; try done.
  destruct (kms.Encrypt wrapper (RootKey.Key r)) as [rootBlob| |] eqn:Hroot;
    simpl in Henc; try done.
  exists meta, wrapper. destruct (0 <? length (RootKey.RSAKey r)).
  - destruct (kms.Encrypt wrapper (RootKey.RSAKey r)) as [rsaBlob| |] eqn:Hrsa;
      simpl in Henc; try done.
    by injection Henc as <- <-.
  - by injection Henc as <- <-.
Qed.

(** The wrapper record encryptDEK makes for a provider is the one
    loadKeyFromStore undoes: read back from a file, it gives the root key
    that was wrapped, for the built-in provider and for the external ones
    alike, when the wrapper of the provider unwraps what it wrapped and the
    metadata is valid.  The record holds a key encryption key of 32 bytes
    for the providers "aead" and "", and none for any other. *)
Theorem encryptDEK_loadKeyFromStore_roundtrip (e : Encrypter) (w w1 w2 : World)
    (r : RootKey.t) (meta : RootKeyMeta.t) (p : KEKProvider.t)
    (kekWrapper : KeyEncryptionKeyWrapper.t) (path : string) :
  RootKey.Meta r = Some meta ->
  RootKeyMeta_Validate (Some meta) = Ok tt ->
  encryptDEK e w r (Some p) = (Ok kekWrapper, w1) ->
  (forall wrapper,
     newKMSWrapper e (KEKProvider.Provider p) (KEKProvider.Name p) (RootKeyMeta.KeyID meta)
       (KeyEncryptionKeyWrapper.KeyEncryptionKey kekWrapper) = Ok wrapper ->
     unwraps wrapper) ->
  os_ReadFile w2 (keystorePath e) path = Ok (Json kekWrapper) ->
  loadKeyFromStore e w2 path = Ok r /\
  if builtinProvider (KEKProvider.Provider p)
  then length (KeyEncryptionKeyWrapper.KeyEncryptionKey kekWrapper) = 32
  else KeyEncryptionKeyWrapper.KeyEncryptionKey kekWrapper = [].
Proof.
  intros Hmeta Hvalid Henc Hlaw Hread.
  destruct (encryptDEK_inv _ _ _ _ _ _ Henc)
    as (meta' & wrapper & Hm & Hkm & Hkp & Hkn & Hkek & Hw & Hroot & Hrsa).
  rewrite Hmeta in Hm. injection Hm as <-. split; [|done].
  pose proof (Hlaw wrapper Hw) as Hun.
  destruct (Hun _ _ Hroot) as [Hkey _].
  replace r with (RootKey.mk (Some meta) (RootKey.Key r) (RootKey.RSAKey r))
    by (destruct r; simpl in *; by rewrite Hmeta).
  apply (loadKeyFromStore_Ok e w2 path kekWrapper meta wrapper); try done.
  - by rewrite Hkp, Hkn.
  - simpl. destruct (0 <? length (RootKey.RSAKey r)) eqn:Hlen.
    + destruct (Hun _ _ Hrsa) as [Hrsa' Hpos].
      by rewrite (proj2 (Nat.ltb_lt _ _) Hpos).
    + rewrite Hrsa. simpl. apply Nat.ltb_ge in Hlen.
      by destruct (RootKey.RSAKey r); [|simpl in Hlen; lia].
Qed.

(** Saving under a provider that is neither built in nor one of the four
    external ones panics: encryptDEK draws no key encryption key for it,
    newKMSWrapper falls to the AEAD wrapper, which refuses the empty key,
    and the error is overwritten unread, so [Encrypt] is called on a nil
    wrapper.  AddKey panics with the key already in the keyring and
    nothing written. *)
Theorem save_unlisted_provider_panics (e e1 : Encrypter) (w : World) (r : RootKey.t)
    (meta : RootKeyMeta.t) (p : KEKProvider.t) (rest : list (option KEKProvider.t))
    (err : error) :
  RootKey.Meta r = Some meta ->
  RootKeyMeta.KEKProviders meta = Some p :: rest ->
  externalProvider (KEKProvider.Provider p) = false ->
  builtinProvider (KEKProvider.Provider p) = false ->
  aead_NewWrapper (RootKeyMeta.KeyID meta) [] = Err err ->
  addCipher e (Some r) = Ok e1 ->
  encryptDEK e1 w r (Some p) = (nilDeref, w) /\
  saveKeyToStore e1 w r = (nilDeref, w) /\
  AddKey e w (Some r) = (nilDeref, e1, w).
Proof.
  intros Hmeta Hprov Hext Hbuiltin Hnew Hadd.
  assert (encryptDEK e1 w r (Some p) = (nilDeref, w)) as Henc.
  { unfold encryptDEK. unfold builtinProvider in Hbuiltin. rewrite Hbuiltin, Hmeta.
    cbn [wrapping obind]. by rewrite (newKMSWrapper_default e1 _ _ _ _ Hext), Hnew. }
  assert (saveKeyToStore e1 w r = (nilDeref, w)) as Hsave.
  { unfold saveKeyToStore. rewrite Hmeta, Hprov. simpl. by rewrite Henc. }
  split; [done |]. split; [done |]. unfold AddKey. by rewrite Hadd, Hsave.
Qed.

End Providers.

(** ** The files saveKeyToStore writes *)

Section Save.
Context {L : Libs}.

Local Arguments encryptDEK : simpl never.
Local Arguments os_WriteFile : simpl never.







End Save.

(** ** Starting on a keystore directory *)

Section Start.
Context {L : Libs}.

Local Arguments addCipher : simpl never.
Local Arguments loadKeyFromStore : simpl never.


Lemma strapp_inj_r (a b c : string) : a +:+ c = b +:+ c -> a = b.
Proof.
  intros H.
  by rewrite <- (TrimSuffix_app a c), H, TrimSuffix_app.
Qed.

Lemma lookupEntry_elem_of (name : string) (x : node) (entries : list (string * node)) :
  lookupEntry name entries = Some x -> (name, x) ∈ entries.
Proof.
  induction entries as [|[n y] rest IH]; simpl; [done |].
  destruct (String.eqb n name) eqn:Hn.
  - apply String.eqb_eq in Hn as ->. intros [= ->]. by left.
  - intros H. right. by apply IH.
Qed.

Lemma elem_of_lookupEntry (name : string) (x : node) (entries : list (string * node)) :
  (name, x) ∈ entries -> is_Some (lookupEntry name entries).
Proof.
  induction entries as [|[n y] rest IH]; [by intros ?%elem_of_nil |].
  intros [[= <- <-]|Hin]%elem_of_cons; simpl.
  - by rewrite String.eqb_refl.
  - destruct (String.eqb n name); [done | by apply IH].
Qed.



(** What the visit of a key file did when it succeeded. *)
Lemma walkFn_file_Ok (e e1 : Encrypter) (w : World) (name : string) (text : filetext) :
  noSlash name = true ->
  passedOver (name, File text) = false ->
  walkFn e w (Join (keystorePath e) name) (File text) = (Ok tt, e1) ->
  exists id key meta,
    name = id +:+ nomadKeystoreExtension /\ IsUUID id = true /\
    loadKeyFromStore e w (Join (keystorePath e) name) = Ok key /\
    RootKey.Meta key = Some meta /\ RootKeyMeta.KeyID meta = id /\
    addCipher e (Some key) = Ok e1.
Proof.
  intros Hname Hpass. unfold passedOver in Hpass. simpl in Hpass.
  apply orb_false_elim in Hpass as [Hsuf Hid].
  apply negb_false_iff in Hsuf. apply negb_false_iff in Hid.
  pose proof (HasSuffix_true _ _ Hsuf) as Hshape.
  set (id := TrimSuffix name nomadKeystoreExtension) in *.
  assert (name <> "") as Hne by (rewrite Hshape; by destruct id).
  unfold walkFn. rewrite Join_neq. cbn [negb andb].
  rewrite (HasSuffix_Join _ _ _ extension_noSlash), Hsuf. cbn [negb].
  rewrite (Base_Join _ _ Hname Hne). fold id. rewrite Hid. cbn [negb].
  destruct (loadKeyFromStore e w _) as [key|err|m]; try done.
  destruct (RootKey.Meta key) as [meta|] eqn:Hmeta; [|done].
  destruct (String.eqb (RootKeyMeta.KeyID meta) id) eqn:Hsame; cbn [negb]; [|done].
  apply String.eqb_eq in Hsame.
  destruct (addCipher e (Some key)) as [e'| |] eqn:Hadd; try done.
  intros [= <-]. by exists id, key, meta.
Qed.

(** The keyring after a walk that succeeded, key ID by key ID: the keyring
    is as before and the directory has no key file of that ID, or it has
    one and the keyring holds the key loaded from it. *)
Lemma walkEntries_Ok (e e' : Encrypter) (w : World) (entries : list (string * node)) :
  Forall (fun entry => noSlash entry.1 = true) entries ->
  walkEntries e w entries = (Ok tt, e') ->
  forall id,
    (keyring e' !! id = keyring e !! id /\
     (IsUUID id = true ->
      forall text, (id +:+ nomadKeystoreExtension, File text) ∉ entries)) \/
    (IsUUID id = true /\
     exists text key ks,
       (id +:+ nomadKeystoreExtension, File text) ∈ entries /\
       loadKeyFromStore e w (Join (keystorePath e) (id +:+ nomadKeystoreExtension))
       = Ok key /\
       keyring e' !! id = Some ks /\ rootKey ks = key).
Proof.
  intros Hnames. revert e.
  induction Hnames as [|[name info] rest Hname _ IH]; intros e Hwalk id.
  { injection Hwalk as <-. left. split; [done |]. intros _ text Hin.
    by apply elem_of_nil in Hin. }
  simpl in Hname, Hwalk.
  destruct (passedOver (name, info)) eqn:Hpass.
  - rewrite (walkFn_passedOver e w name info Hname Hpass) in Hwalk.
    assert (walkEntries e w rest = (Ok tt, e')) as Hrest by (by destruct info).
    destruct (IH e Hrest id) as [[Hsame Hno]|(Hid & text & key & ks & Hin & Hrec)].
    + left. split; [done |]. intros Hid text [[= <- <-]|Hin]%elem_of_cons.
      * unfold passedOver in Hpass. simpl in Hpass.
        by rewrite HasSuffix_app, TrimSuffix_app, Hid in Hpass.
      * by apply (Hno Hid text).
    + right. split; [done |]. exists text, key, ks. split; [by right | done].
  - destruct info as [|text|]; [done | | by simpl in Hwalk].
    destruct (walkFn e w (Join (keystorePath e) name) (File text))
      as [[[]|err|m] e1] eqn:Hvisit; try done; [| by destruct err].
    destruct (walkFn_file_Ok _ _ _ _ _ Hname Hpass Hvisit)
      as (id1 & key1 & meta1 & -> & Hid1 & Hload1 & Hmeta1 & Hkid1 & Hadd1).
    apply addCipher_Ok in Hadd1 as (r' & meta' & ks1 & [= <-] & Hm & Hks1 & ->).
    rewrite Hmeta1 in Hm. injection Hm as <-. rewrite Hkid1 in *.
    apply newKeyset_Ok in Hks1 as [Hroot1 _].
    destruct (IH _ Hwalk id) as [[Hsame Hno]|(Hid & text' & key & ks & Hin & Hrec)].
    + simpl in Hsame. destruct (decide (id = id1)) as [->|Hne].
      * right. split; [done |]. exists text, key1, ks1. split; [by left |].
        split; [done |]. by rewrite Hsame, lookup_insert_eq.
      * left. split; [by rewrite Hsame, lookup_insert_ne |].
        intros Hid text' [[= E%strapp_inj_r _]|Hin]%elem_of_cons; [done |].
        by apply (Hno Hid text').
    + right. split; [done |]. exists text', key, ks. split; [by right | done].
Qed.

(** What a successful loadKeystore has loaded: every file of the
    directory that is named by a UUID and the extension was unwrapped by
    loadKeyFromStore, and the keyring holds the key it gave under that
    UUID; a key ID without such a file is in the keyring as it was before.
    The directory is left as it is. *)
Theorem loadKeystore_loads_every_key_file (e e' : Encrypter) (w w' : World)
    (entries : list (string * node)) :
  disk w = Tree entries ->
  HasSuffix (keystorePath e) nomadKeystoreExtension = false ->
  Forall (fun entry => noSlash entry.1 = true) entries ->
  loadKeystore e w = (Ok tt, e', w') ->
  w' = w /\
  (forall id text,
     IsUUID id = true ->
     (id +:+ nomadKeystoreExtension, File text) ∈ entries ->
     exists key,
       loadKeyFromStore e w (Join (keystorePath e) (id +:+ nomadKeystoreExtension))
       = Ok key /\
       GetKey e' id = Ok (RootKey.Key key, RootKey.RSAKey key)) /\
  (forall id,
     (forall text, (id +:+ nomadKeystoreExtension, File text) ∉ entries) ->
     keyring e' !! id = keyring e !! id).
Proof.
  intros Hdisk Hroot Hnames Hload.
  rewrite (loadKeystore_walk e w entries Hdisk Hroot) in Hload.
  injection Hload as Hwalk <-. split; [done |].
  assert (walkEntries e w entries = (Ok tt, e')) as Hwalk'
    by (by destruct (walkEntries e w entries)).
  pose proof (walkEntries_Ok e e' w entries Hnames Hwalk') as Hids. split.
  - intros id text Hid Hin.
    destruct (Hids id) as [[_ Hno]|(_ & text' & key & ks & _ & Hkey & Hks & Hrk)].
    + by destruct (Hno Hid text).
    + exists key. split; [done |].
      unfold GetKey, keysetByIDLocked. rewrite Hks. simpl. by rewrite Hrk.
  - intros id Hno.
    destruct (Hids id) as [[Hsame _]|(_ & text' & key & ks & Hin & _)]; [done |].
    by destruct (Hno text').
Qed.

End Start.

(** ** The keyring replicator *)

Section ReplicationFacts.
Context {L : Libs}.

Local Arguments addCipher : simpl never.
Local Arguments saveKeyToStore : simpl never.
Local Arguments AddKey : simpl never.

Lemma lastError_cons (err : option error) (a : KeyringGetResult)
    (answers : list KeyringGetResult) :
  lastError err (a :: answers)
  = lastError (match a with Failed err' => Some err' | Reply _ => None end) answers.
Proof.
  unfold lastError. destruct answers as [|b rest]; [by destruct a as [k|err'] |].
  rewrite last_cons_cons.
  destruct (last (b :: rest)) as [c|] eqn:Hlast; [done |].
  by apply last_None in Hlast.
Qed.

Lemma askPeers_silent (peers : list KeyringGet) (getReq : KeyringGetRootKeyRequest.t)
    (err : option error) :
  Forall (fun a => keyOf a = None) ((fun peer : KeyringGet => peer getReq) <$> peers) ->
  askPeers peers getReq err None
  = (lastError err ((fun peer : KeyringGet => peer getReq) <$> peers), None).
Proof.
  revert err. induction peers as [|peer rest IH]; intros err Hall; [done |].
  simpl in Hall. apply Forall_cons in Hall as [Hpeer Hrest].
  rewrite fmap_cons.
  rewrite lastError_cons. simpl.
  destruct (peer getReq) as [[k|]|err']; [done | |]; by rewrite IH.
Qed.

Lemma askPeers_first (peers : list KeyringGet) (getReq : KeyringGetRootKeyRequest.t)
    (err : option error) (before after : list KeyringGetResult) (key : RootKey.t) :
  (fun peer : KeyringGet => peer getReq) <$> peers = before ++ Reply (Some key) :: after ->
  Forall (fun a => keyOf a = None) before ->
  askPeers peers getReq err None = (None, Some key).
Proof.
  revert err before. induction peers as [|peer rest IH]; intros err before Hsplit Hall.
  { by destruct before. }
  simpl in Hsplit. destruct before as [|a before].
  - injection Hsplit as Hpeer _. simpl. by rewrite Hpeer.
  - injection Hsplit as Hpeer Hrest. apply Forall_cons in Hall as [Ha Hall].
    simpl. rewrite Hpeer. destruct a as [[k|]|err']; [done | |]; by apply (IH _ before).
Qed.

(** A key the loop over the peers ends with was answered by one of them. *)
Lemma askPeers_key (peers : list KeyringGet) (getReq : KeyringGetRootKeyRequest.t)
    (err err' : option error) (key : RootKey.t) :
  askPeers peers getReq err None = (err', Some key) ->
  exists peer, peer ∈ peers /\ peer getReq = Reply (Some key).
Proof.
  revert err. induction peers as [|peer rest IH]; intros err; [done |].
  simpl. destruct (peer getReq) as [[k|]|e1] eqn:Hpeer.
  - intros [= _ <-]. exists peer. split; [by left | done].
  - intros (p & Hin & Hp)%IH. exists p. split; [by right | done].
  - intros (p & Hin & Hp)%IH. exists p. split; [by right | done].
Qed.

(** replicateKey takes the first key it is answered, the leader asked
    first and then the peers in turn, and hands it to AddKey, whose error
    it returns wrapped; the answers after that one are not asked for.  When
    no answer holds a key it fails with the error of the last call alone,
    and leaves the keyring and the keystore as they are. *)
Theorem replicateKey_first_key (e : Encrypter) (w : World) (srv : Server)
    (keyMeta : RootKeyMeta.t) :
  (forall before key after,
     answersFor srv keyMeta = before ++ Reply (Some key) :: after ->
     Forall (fun a => keyOf a = None) before ->
     replicateKey e w srv keyMeta
     = (wrapping "failed to add key to keyring" (AddKey e w (Some key)).1.1,
        (AddKey e w (Some key)).1.2, (AddKey e w (Some key)).2)) /\
  (Forall (fun a => keyOf a = None) (answersFor srv keyMeta) ->
   replicateKey e w srv keyMeta
   = (Err (ErrWrap "failed to fetch key from any peer"
             (errOrNil (lastError None (answersFor srv keyMeta)))), e, w)).
Proof.
  unfold answersFor, replicateKey, fetchKey, getAllPeers. split.
  - intros before key after Hsplit Hall.
    assert (forall k, (let '(r, e', w') := AddKey e w (Some k) in
                       (wrapping "failed to add key to keyring" r, e', w'))
                      = (wrapping "failed to add key to keyring" (AddKey e w (Some k)).1.1,
                         (AddKey e w (Some k)).1.2, (AddKey e w (Some k)).2)) as Hadd
      by (intros k; by destruct (AddKey e w (Some k)) as [[r e'] w']).
    destruct before as [|a before].
    + injection Hsplit as -> _. apply Hadd.
    + injection Hsplit as Hleader Hpeers. apply Forall_cons in Hall as [Ha Hall].
      rewrite Hleader.
      destruct a as [[k|]|err]; [done | |];
        rewrite (askPeers_first _ _ _ before after key Hpeers Hall); apply Hadd.
  - intros [Hleader Hpeers]%Forall_cons. rewrite lastError_cons.
    destruct (RPC srv _) as [[k|]|err]; [done | |]; by rewrite askPeers_silent.
Qed.

Lemma fetchKey_answered (srv : Server) (keyMeta : RootKeyMeta.t) (err : option error)
    (key : RootKey.t) :
  fetchKey srv keyMeta = (err, Some key) ->
  Reply (Some key) ∈ answersFor srv keyMeta.
Proof.
  unfold fetchKey, answersFor, getAllPeers.
  destruct (RPC srv _) as [[k|]|err0].
  - intros [= _ <-]. by left.
  - intros (peer & Hin & <-)%askPeers_key. right.
    by apply (list_elem_of_fmap_2 (fun p : KeyringGet => p _)).
  - intros (peer & Hin & <-)%askPeers_key. right.
    by apply (list_elem_of_fmap_2 (fun p : KeyringGet => p _)).
Qed.


Lemma faithful_answer (srv : Server) (keyMeta : RootKeyMeta.t) (key : RootKey.t)
    (meta : RootKeyMeta.t) :
  faithful srv ->
  Reply (Some key) ∈ answersFor srv keyMeta ->
  RootKey.Meta key = Some meta ->
  RootKeyMeta.KeyID meta = RootKeyMeta.KeyID keyMeta.
Proof.
  intros [Hleader Hpeers] Hin Hmeta. unfold answersFor in Hin.
  apply elem_of_cons in Hin as [Hin|Hin].
  - by apply (Hleader _ _ _ (eq_sym Hin) Hmeta).
  - apply list_elem_of_fmap_1 in Hin as (peer & Hpeer & Hin).
    apply (proj1 (Forall_forall _ _) Hpeers _ Hin _ _ _ (eq_sym Hpeer) Hmeta).
Qed.

(** replicateKey does not compare the key it is answered with the key it
    asked for: the key is filed under the ID of its own metadata.  When
    that is another ID than the requested one, the requested key is held or
    not held as before, and replicateKey still ends as AddKey does. *)
Theorem replicateKey_files_under_own_id (e e1 : Encrypter) (w : World) (srv : Server)
    (keyMeta : RootKeyMeta.t) (key : RootKey.t) (meta : RootKeyMeta.t) :
  RPC srv (getReqFor srv keyMeta) = Reply (Some key) ->
  RootKey.Meta key = Some meta ->
  addCipher e (Some key) = Ok e1 ->
  (replicateKey e w srv keyMeta).1.2 = e1 /\
  (replicateKey e w srv keyMeta).1.1
  = wrapping "failed to add key to keyring" (saveKeyToStore e1 w key).1 /\
  GetKey e1 (RootKeyMeta.KeyID meta) = Ok (RootKey.Key key, RootKey.RSAKey key) /\
  (RootKeyMeta.KeyID meta <> RootKeyMeta.KeyID keyMeta ->
   held e1 (RootKeyMeta.KeyID keyMeta) = held e (RootKeyMeta.KeyID keyMeta)).
Proof.
  intros Hleader Hmeta Hadd.
  unfold replicateKey, fetchKey. rewrite Hleader. unfold AddKey. rewrite Hadd.
  destruct (saveKeyToStore e1 w key) as [r w1]. simpl.
  split; [done |]. split; [done |].
  pose proof (addCipher_other_key e e1 key meta) as Hother.
  apply addCipher_Ok in Hadd as (r' & meta' & ks & [= <-] & Hm & Hks & ->).
  rewrite Hmeta in Hm. injection Hm as <-.
  apply newKeyset_Ok in Hks as [Hroot _]. split.
  - unfold GetKey, keysetByIDLocked. simpl. rewrite lookup_insert_eq. simpl.
    by rewrite Hroot.
  - intros Hne. unfold held, GetKey, keysetByIDLocked. simpl.
    by rewrite lookup_insert_ne.
Qed.

(** A key the keyring holds with its material stays as it is through a
    call of replicateKey for a key that is not held, when the servers
    answer with the key they were asked for. *)
Lemma replicateKey_keeps (e : Encrypter) (w : World) (srv : Server)
    (keyMeta : RootKeyMeta.t) (id : string) (ks : keyset) :
  faithful srv ->
  held e (RootKeyMeta.KeyID keyMeta) = false ->
  keyring e !! id = Some ks -> 0 < length (RootKey.Key (rootKey ks)) ->
  keyring (replicateKey e w srv keyMeta).1.2 !! id = Some ks.
Proof.
  intros Hfaith Hheld Hks Hlen. unfold replicateKey.
  destruct (fetchKey srv keyMeta) as [err [key|]] eqn:Hfetch; [|done].
  apply fetchKey_answered in Hfetch.
  unfold AddKey.
  destruct (addCipher e (Some key)) as [e1| |] eqn:Hadd; try done.
  destruct (saveKeyToStore e1 w key) as [r w1]. simpl.
  apply addCipher_Ok in Hadd as (r' & meta & ks1 & [= <-] & Hmeta & _ & ->). simpl.
  rewrite (faithful_answer srv keyMeta key meta Hfaith Hfetch Hmeta).
  rewrite lookup_insert_ne; [done |]. intros <-.
  unfold held, GetKey, keysetByIDLocked in Hheld. rewrite Hks in Hheld. simpl in Hheld.
  apply Nat.ltb_ge in Hheld. lia.
Qed.

Lemma replicateMetas_keeps (e : Encrypter) (w : World) (srv : Server)
    (metas : list RootKeyMeta.t) (id : string) (ks : keyset) :
  faithful srv ->
  keyring e !! id = Some ks -> 0 < length (RootKey.Key (rootKey ks)) ->
  keyring (replicateMetas e w srv metas).1.2 !! id = Some ks.
Proof.
  intros Hfaith. revert e w. induction metas as [|keyMeta rest IH]; intros e w Hks Hlen;
    [done |].
  simpl. destruct (held e (RootKeyMeta.KeyID keyMeta)) eqn:Hheld; [by apply IH |].
  pose proof (replicateKey_keeps e w srv keyMeta id ks Hfaith Hheld Hks Hlen) as Hkeep.
  destruct (replicateKey e w srv keyMeta) as [[[[]|err|m] e1] w1]; simpl in *;
    try done; by apply IH.
Qed.

(** The replicator never replaces key material the keyring holds: through
    any number of rounds of run, with servers that answer with the key they
    were asked for, a key that is in the keyring with its material stays
    there, keyset and all, whether a round ends in a panic or not. *)
Theorem run_keeps_held_keys (e : Encrypter) (w : World) (rounds : list Server)
    (id : string) (ks : keyset) :
  Forall faithful rounds ->
  keyring e !! id = Some ks -> 0 < length (RootKey.Key (rootKey ks)) ->
  keyring (run e w rounds).1.2 !! id = Some ks.
Proof.
  intros Hfaith. revert e w.
  induction Hfaith as [|srv rest Hsrv _ IH]; intros e w Hks Hlen; [done |].
  simpl. destruct (RootKeyMetas srv) as [metas|err|m]; [| by apply IH | done].
  pose proof (replicateMetas_keeps e w srv metas id ks Hsrv Hks Hlen) as Hkeep.
  destruct (replicateMetas e w srv metas) as [[[[]|err|m] e1] w1]; simpl in *;
    try done; by apply IH.
Qed.



(** Once the keyring holds every key of the state store's metadata, the
    replicator is at rest: whatever the servers would answer, run changes
    neither the keyring nor the keystore, round after round. *)
Theorem run_at_rest (e : Encrypter) (w : World) (rounds : list Server) :
  Forall (fun srv =>
            match RootKeyMetas srv with
            | Ok metas =>
                Forall (fun keyMeta => held e (RootKeyMeta.KeyID keyMeta) = true) metas
            | Err _ => True
            | Panic _ => False
            end) rounds ->
  run e w rounds = (Ok tt, e, w).
Proof.
  induction 1 as [|srv rest Hsrv _ IH]; [done |].
  simpl. destruct (RootKeyMetas srv) as [metas|err|m]; [| done..].
  assert (replicateMetas e w srv metas = (Ok tt, e, w)) as ->; [|done].
  induction Hsrv as [|keyMeta metas Hheld _ IHmetas]; [done |].
  simpl. by rewrite Hheld.
Qed.

End ReplicationFacts.

(** ** The keyring, the keystore and the replicator on the sample data *)

Section MoreRuns.
Import Reference Sample SampleCluster.

Lemma ring1_ok : keyring_ok (L := libs) ring1.
Proof.
  unfold ring1.
  destruct (addCipher (L := libs) empty (Some key1)) as [e1| |] eqn:H1;
    try by apply keyring_ok_empty.
  apply (addCipher_keyring_ok _ _ _ (keyring_ok_empty empty eq_refl) H1).
Qed.

Lemma wrapperWith_unwraps (secret : bytes) : unwraps (wrapperWith secret).
Proof.
  intros plaintext blob [= <-]. split.
  - cbn [kms.Decrypt wrapperWith].
    rewrite ReferenceFacts.unframe_frame
      by (rewrite length_app, ReferenceFacts.frame_length; lia).
    by rewrite (proj2 (ReferenceFacts.bytes_eqb_eq secret secret) eq_refl).
  - rewrite length_app, ReferenceFacts.frame_length. lia.
Qed.

Lemma holds_answersRequested (keys : list RootKey.t) : answersRequested (holds keys).
Proof.
  intros getReq key meta [= Hfind] Hmeta.
  apply List.find_some in Hfind as [_ Hkey]. rewrite Hmeta in Hkey.
  by apply String.eqb_eq in Hkey.
Qed.

Lemma region_faithful : faithful region.
Proof.
  split; [apply holds_answersRequested |].
  repeat constructor; try apply holds_answersRequested. by intros getReq key meta.
Qed.

(** K1 with the first 16 bytes of its key: AES takes it, addCipher
    panics. *)
Lemma addCipher_key_length_witness :
  addCipher (L := libs) empty (Some key16) = Panic "ed25519: bad seed length" /\
  AddKey (L := libs) empty world1 (Some key16)
  = (Panic "ed25519: bad seed length", empty, world1).
Proof.
  apply (proj2 (addCipher_key_length (L := libs) empty world1 key16 meta1 eq_refl)
           (repeat Byte.x11 16) (gcm (repeat Byte.x11 16)));
    [reflexivity | reflexivity | reflexivity | by vm_compute].
Defined.

(** K1 has no RSA key and is published as an EdDSA key; K2 has one and is
    published as an RS256 key. *)
Lemma GetPublicKey_of_root_key_witness :
  (exists pubKey,
     GetPublicKey (L := libs) ring K1 = Ok pubKey /\
     KeyringPublicKey.Algorithm pubKey = PubKeyAlgEdDSA) /\
  (exists pubKey,
     GetPublicKey (L := libs) ring K2 = Ok pubKey /\
     KeyringPublicKey.Algorithm pubKey = PubKeyAlgRS256).
Proof.
  split.
  - pose proof (GetPublicKey_of_root_key (L := libs) ring K1
                  (ReferenceFacts.ringOf_ok libs)) as H.
    destruct (keyring ring !! K1) as [ks|] eqn:Hks; [| by vm_compute in Hks].
    assert (RootKey.RSAKey (rootKey ks) = []) as Hrsa
      by (vm_compute in Hks; by injection Hks as <-).
    destruct H as (meta & _ & _ & H). rewrite Hrsa in H. simpl in H.
    eexists. split; [exact H | done].
  - pose proof (GetPublicKey_of_root_key (L := libs) ring K2
                  (ReferenceFacts.ringOf_ok libs)) as H.
    destruct (keyring ring !! K2) as [ks|] eqn:Hks; [| by vm_compute in Hks].
    assert (RootKey.RSAKey (rootKey ks) = [Byte.x30; Byte.x82; Byte.x04; Byte.xa4])
      as Hrsa by (vm_compute in Hks; by injection Hks as <-).
    destruct H as (meta & _ & _ & H). rewrite Hrsa in H. simpl in H.
    destruct H as (priv & _ & H).
    eexists. split; [exact H | done].
Defined.

(** K2 removed from the sample keyring, and K1 added and removed again. *)
Lemma RemoveKey_forgets_witness :
  GetKey (RemoveKey ring K2).2 K2 = Err (ErrNoSuchKey K2) /\
  Encrypt (RemoveKey ring K2).2 world2 hello = (Err (ErrNoSuchKey K2), world2) /\
  GetKey (RemoveKey ring K2).2 K1 = GetKey ring K1 /\
  (RemoveKey ring1 K1).2 = empty.
Proof.
  destruct (RemoveKey_forgets (L := libs) ring K2) as ((Hget & _ & _ & Henc) & Hother & _).
  split; [done |]. split; [by apply (Henc world2 meta2) |].
  split; [by apply Hother |].
  destruct (RemoveKey_forgets (L := libs) ring1 K1) as (_ & _ & _ & Hback).
  by apply (Hback empty key1 meta1).
Defined.

(** Encrypt before the keyring is initialized, before the active key has
    arrived, and with a random source that gives out after two bytes. *)
Lemma Encrypt_outcomes_witness :
  Encrypt ring (world None (Tree [])) hello
  = (Err ErrNotInitialized, world None (Tree [])) /\
  Encrypt empty world1 hello = (Err (ErrNoSuchKey K1), world1) /\
  Encrypt ring (mkWorld (Ok (Some meta1)) (Tree []) [Byte.x07; Byte.x07]) hello
  = (Err (ErrWrap "failed to generate key wrapper nonce" ErrEntropy),
     mkWorld (Ok (Some meta1)) (Tree []) []).
Proof.
  split; [|split].
  - apply (Encrypt_outcomes (L := libs) (GCMFraming0 := ReferenceFacts.gcm_framing)
             ring (world None (Tree [])) hello (ReferenceFacts.ringOf_ok libs)).
  - apply (Encrypt_outcomes (L := libs) (GCMFraming0 := ReferenceFacts.gcm_framing)
             empty world1 hello (keyring_ok_empty empty eq_refl)).
  - pose proof (Encrypt_outcomes (L := libs) (GCMFraming0 := ReferenceFacts.gcm_framing)
                  ring (mkWorld (Ok (Some meta1)) (Tree []) [Byte.x07; Byte.x07]) hello
                  (ReferenceFacts.ringOf_ok libs)) as H.
    simpl in H.
    by destruct (keyring ring !! K1) as [ks|] eqn:Hks; [| by vm_compute in Hks].
Defined.

(** "hello" encrypted under K1 while K1 is active: it decrypts after K2
    has been removed, and no longer after K1 has been. *)
Lemma Decrypt_while_key_held_witness :
  exists ciphertext w',
    Encrypt ring world1 hello = (Ok (ciphertext, K1), w') /\
    Decrypt (RemoveKey ring K2).2 (sliceOf ciphertext) K1 = Ok hello /\
    Decrypt (RemoveKey ring K1).2 (sliceOf ciphertext) K1 = Err (ErrNoSuchKey K1).
Proof.
  destruct (Encrypt ring world1 hello) as [[[ciphertext k]| |] w'] eqn:Henc;
    [| by vm_compute in Henc..].
  assert (k = K1) as ->.
  { vm_compute in Henc. injection Henc as _ <- _. reflexivity. }
  exists ciphertext, w'. split; [done |].
  destruct (Decrypt_while_key_held (L := libs) (GCMCorrect0 := ReferenceFacts.gcm_correct)
              ring world1 w' hello ciphertext K1 (sliceOf ciphertext)
              (ReferenceFacts.ringOf_ok libs) Henc eq_refl) as (_ & Hother & Hgone).
  split; [by apply Hother | done].
Defined.

(** The claims signed under K2 while K2 is active: the token verifies after
    K1 has been removed, and no longer after K2 has been. *)
Lemma VerifyClaim_while_key_held_witness :
  exists raw,
    SignClaims (L := libs) ring world2 (fun _ => (ring, world2)) 100 claims
    = Ok (raw, K2) /\
    VerifyClaim (L := libs) (RemoveKey ring K1).2 raw = Ok claims /\
    VerifyClaim (L := libs) (RemoveKey ring K2).2 raw = Err (ErrNoSuchKey K2).
Proof.
  destruct (SignClaims (L := libs) ring world2 (fun _ => (ring, world2)) 100 claims)
    as [[raw keyID]| |] eqn:Hsign; [| by vm_compute in Hsign..].
  assert (keyID = K2) as ->.
  { vm_compute in Hsign. injection Hsign as _ <-. reflexivity. }
  exists raw. split; [done |].
  destruct (activeKeySet ring world2) as [ks| |] eqn:Hactive;
    [| by vm_compute in Hactive..].
  destruct (VerifyClaim_while_key_held (L := libs)
              (JoseCorrect0 := ReferenceFacts.jose_correct gcm)
              ring world2 _ 100 claims ks raw K2 (ReferenceFacts.ringOf_ok libs)
              Hactive Hsign) as (_ & Hother & Hgone); [done | reflexivity |].
  split; [by apply Hother | done].
Defined.

(** A server without provider configurations, started on an empty
    keystore directory. *)
Lemma NewEncrypter_result_witness :
  exists e,
    NewEncrypter (L := libs) (mkConfig "https://nomad.example" []) (world None (Tree []))
      keystore
    = (Ok e, world None (Tree [])) /\
    providerConfigs e = None /\ issuer e = "https://nomad.example" /\
    newKMSWrapper (L := libs) e "awskms" "" K1 [] = Ok (wrapperWith (bytesOf "awskms")).
Proof.
  destruct (NewEncrypter (L := libs) (mkConfig "https://nomad.example" [])
              (world None (Tree [])) keystore) as [[e| |] w'] eqn:Hnew;
    [| by vm_compute in Hnew..].
  assert (w' = world None (Tree [])) as ->
    by (vm_compute in Hnew; by injection Hnew as _ <-).
  destruct (NewEncrypter_result (L := libs) _ _ _ _ _ Hnew)
    as (_ & Hconfigs & _ & Hissuer & Hwrappers).
  exists e. split; [done |]. split; [done |]. split; [done |].
  by destruct (Hwrappers "" K1 []) as [H _].
Defined.

(** K1 wrapped for AWS KMS: the record loads back from a file, and holds
    no key encryption key. *)
Lemma encryptDEK_loadKeyFromStore_roundtrip_witness :
  exists kekWrapper w1,
    encryptDEK (L := libs) empty world1 keyAWS awsProvider = (Ok kekWrapper, w1) /\
    loadKeyFromStore (L := libs) empty
      (world None (Tree [(K1 +:+ ".awskms.nks.json", File (Json kekWrapper))]))
      (fileOf (K1 +:+ ".awskms.nks.json"))
    = Ok keyAWS /\
    KeyEncryptionKeyWrapper.KeyEncryptionKey kekWrapper = [].
Proof.
  destruct (encryptDEK (L := libs) empty world1 keyAWS awsProvider)
    as [[kekWrapper| |] w1] eqn:Henc; [| by vm_compute in Henc..].
  exists kekWrapper, w1. split; [done |].
  apply (encryptDEK_loadKeyFromStore_roundtrip (L := libs) empty world1 w1
           (world None (Tree [(K1 +:+ ".awskms.nks.json", File (Json kekWrapper))]))
           keyAWS metaAWS (KEKProvider.mk "awskms" "") kekWrapper
           (fileOf (K1 +:+ ".awskms.nks.json")));
    try done.
  intros wrapper [= <-]. apply wrapperWith_unwraps.
Defined.

(** K1 to be saved under the provider "nonesuch". *)
Lemma save_unlisted_provider_panics_witness :
  exists e1,
    addCipher (L := libs) empty (Some keyOdd) = Ok e1 /\
    saveKeyToStore (L := libs) e1 world1 keyOdd
    = (Panic "invalid memory address or nil pointer dereference", world1) /\
    AddKey (L := libs) empty world1 (Some keyOdd)
    = (Panic "invalid memory address or nil pointer dereference", e1, world1).
Proof.
  destruct (addCipher (L := libs) empty (Some keyOdd)) as [e1| |] eqn:Hadd;
    [| by vm_compute in Hadd..].
  exists e1. split; [done |].
  apply (save_unlisted_provider_panics (L := libs) empty e1 world1 keyOdd metaOdd
           oddProvider [] (ErrLib "crypto/aes: invalid key size")); done.
Defined.



(** A restart on the keystore directory that AddKey of K1 and of K2 left:
    both keys are back, with the RSA key of K2, and nothing else. *)
Lemma loadKeystore_loads_every_key_file_witness :
  exists e',
    loadKeystore (L := libs) empty saved = (Ok tt, e', saved) /\
    GetKey e' K1 = Ok (dek Byte.x11, []) /\
    GetKey e' K2 = Ok (dek Byte.x22, [Byte.x30; Byte.x82; Byte.x04; Byte.xa4]) /\
    GetKey e' K3 = Err (ErrNoSuchKey K3).
Proof.
  destruct (loadKeystore (L := libs) empty saved) as [[r e'] w'] eqn:Hload.
  assert (r = Ok tt) as -> by (vm_compute in Hload; by injection Hload as <- _ _).
  destruct (disk saved) as [| |entries] eqn:Hdisk; [by vm_compute in Hdisk.. |].
  assert (Forall (fun entry : string * node => noSlash entry.1 = true) entries) as Hnames.
  { vm_compute in Hdisk. injection Hdisk as <-. repeat constructor. }
  destruct (loadKeystore_loads_every_key_file (L := libs) empty e' saved w' entries
              Hdisk eq_refl Hnames Hload) as (-> & Hfiles & Hframe).
  exists e'. split; [done |]. split; [|split].
  - destruct (lookupEntry (K1 +:+ nomadKeystoreExtension) entries) as [[|text|]|] eqn:Hlook;
      try (vm_compute in Hdisk; injection Hdisk as <-; by vm_compute in Hlook).
    destruct (Hfiles K1 text eq_refl (lookupEntry_elem_of _ _ _ Hlook)) as (key & Hkey & Hget).
    vm_compute in Hkey. by injection Hkey as <-.
  - destruct (lookupEntry (K2 +:+ nomadKeystoreExtension) entries) as [[|text|]|] eqn:Hlook;
      try (vm_compute in Hdisk; injection Hdisk as <-; by vm_compute in Hlook).
    destruct (Hfiles K2 text eq_refl (lookupEntry_elem_of _ _ _ Hlook)) as (key & Hkey & Hget).
    vm_compute in Hkey. by injection Hkey as <-.
  - unfold GetKey, keysetByIDLocked. rewrite (Hframe K3); [done |].
    intros text [node Hlook]%elem_of_lookupEntry.
    vm_compute in Hdisk. injection Hdisk as <-. by vm_compute in Hlook.
Defined.

(** The keyring replicator in the sample region.  For K1 the leader has
    no key, the first peer is down, the second has no key and the third
    answers; for K3 nobody has a key, and the error names the nil error of
    the last call. *)
Lemma replicateKey_first_key_witness :
  (exists e1 w1,
     replicateKey (L := libs) empty world1 region meta1 = (Ok tt, e1, w1) /\
     GetKey e1 K1 = Ok (dek Byte.x11, [])) /\
  replicateKey (L := libs) empty world1 region meta3
  = (Err (ErrWrap "failed to fetch key from any peer" (ErrLib "<nil>")), empty, world1).
Proof.
  split.
  - destruct (AddKey (L := libs) empty world1 (Some key1)) as [[r e1] w1] eqn:Hadd.
    exists e1, w1.
    rewrite (proj1 (replicateKey_first_key (L := libs) empty world1 region meta1)
               [Reply None; Failed (ErrLib "rpc error: No cluster leader"); Reply None]
               key1 [Reply None]);
      [| reflexivity | by repeat constructor].
    rewrite Hadd. vm_compute in Hadd. by injection Hadd as <- <- <-.
  - apply (proj2 (replicateKey_first_key (L := libs) empty world1 region meta3)).
    by repeat constructor.
Defined.

(** A leader that answers with K2 when asked for K1: K2 is installed, K1
    is still not held, and replicateKey reports no error. *)
Lemma replicateKey_files_under_own_id_witness :
  exists e1,
    (replicateKey (L := libs) empty world1 confusedRegion meta1).1.2 = e1 /\
    (replicateKey (L := libs) empty world1 confusedRegion meta1).1.1 = Ok tt /\
    GetKey e1 K2 = Ok (dek Byte.x22, [Byte.x30; Byte.x82; Byte.x04; Byte.xa4]) /\
    held e1 K1 = false.
Proof.
  destruct (addCipher (L := libs) empty (Some key2)) as [e1| |] eqn:Hadd;
    [| by vm_compute in Hadd..].
  destruct (replicateKey_files_under_own_id (L := libs) empty e1 world1 confusedRegion
              meta1 key2 meta2 eq_refl eq_refl Hadd) as (He & Hr & Hget & Hheld).
  exists e1. split; [done |]. split; [|split; [done |]].
  - rewrite Hr. vm_compute in Hadd. injection Hadd as <-. by vm_compute.
  - assert (RootKeyMeta.KeyID meta2 <> RootKeyMeta.KeyID meta1) as Hne by (by vm_compute).
    exact (Hheld Hne).
Defined.

(** Two rounds of the replicator on a keyring that holds K1: the keyset
    of K1 is the one it was. *)
Lemma run_keeps_held_keys_witness :
  is_Some (keyring ring1 !! K1) /\
  keyring (run (L := libs) ring1 world1 [region; region]).1.2 !! K1 = keyring ring1 !! K1.
Proof.
  destruct (keyring ring1 !! K1) as [ks|] eqn:Hks; [| by vm_compute in Hks].
  split; [done |].
  apply (run_keeps_held_keys (L := libs) ring1 world1 [region; region] K1 ks);
    [repeat (apply Forall_cons_2; [apply region_faithful |]); apply Forall_nil_2
    | done |].
  rewrite (keyset_ok_length (L := libs) K1 ks (ring1_ok _ _ Hks)). unfold SeedSize. lia.
Defined.


(** K1 added again, added after its removal, and replaced by a key with
    other material under the same ID. *)
Lemma addCipher_replaces_witness :
  addCipher (L := libs) ring1 (Some key1) = Ok ring1 /\
  addCipher (L := libs) (RemoveKey ring1 K1).2 (Some key1) = Ok ring1 /\
  exists e2,
    addCipher (L := libs) ring1 (Some (RootKey.mk (Some meta1) (dek Byte.x22) []))
    = Ok e2 /\
    GetKey e2 K1 = Ok (dek Byte.x22, []).
Proof.
  destruct (addCipher_replaces (L := libs) empty ring1 key1 meta1 eq_refl eq_refl)
    as (Hsame & _ & Hreplace).
  destruct (addCipher_replaces (L := libs) ring1 ring1 key1 meta1 Hsame eq_refl)
    as (_ & Hback & _).
  split; [done |]. split; [done |].
  destruct (addCipher (L := libs) ring1 (Some (RootKey.mk (Some meta1) (dek Byte.x22) [])))
    as [e2| |] eqn:Hadd; [| by vm_compute in Hadd..].
  exists e2. split; [done |].
  by destruct (Hreplace (RootKey.mk (Some meta1) (dek Byte.x22) []) meta1 e2
                 eq_refl eq_refl Hadd) as [_ Hget].
Defined.

(** The sample region seen from a server that holds K1 and K2, the state
    store listing K1 and K2. *)
Lemma run_at_rest_witness :
  let srv := mkServer "global" (holds []) [down] (Ok [meta1; meta2]) in
  run (L := libs) ring world1 [srv; srv; srv] = (Ok tt, ring, world1).
Proof.
  intros srv.
  apply (run_at_rest (L := libs) ring world1 [srv; srv; srv]).
  repeat (apply Forall_cons_2;
          [simpl; repeat (apply Forall_cons_2; [by vm_compute |]); apply Forall_nil_2 |]).
  apply Forall_nil_2.
Defined.

End MoreRuns.
